(** * client.ts: the request construction and hook-dispatch pipeline

    A shallow embedding of [src/builder/client.ts]: [decodeRoute],
    [mergeObjects], [createRequest] (with [merge] and the mutators) and the
    per-route closure built by [createClient].

    Conventions of the embedding.
    - A JavaScript string is a [string]; the model covers the ASCII range
      ([toUpperCase] maps [a]-[z] and leaves every other character alone).
    - [undefined] (and [null], which the code never tells apart from it: it
      only uses [??], [== null] and truthiness) is [None] of an [option], or
      [VUndefined]/[VNull] for a payload.
    - A thrown value is an [exn]; code that may throw returns [exn + A].
      The closure of a route is an [async] function, so every throw inside
      it is a rejection of the returned promise.
    - A plain object used as a dictionary of headers is a [gmap string string];
      the object spread [{...a, ...b}] is the union that prefers [b].
    - A duration in milliseconds is an [N].
    - A hook is a function of the request (and of the result) it is given;
      a hook that fills the request in place and returns it is the function
      that returns the filled request.  Hooks are held by reference
      ([HookRef]), so that a request can carry hooks.
    - [fetch] and [new URL] belong to the platform; they are parameters.
      Every call of a hook and of [fetch] is written to a log, in order. *)

From Stdlib Require Import Ascii String DecimalString.
From stdpp Require Import gmap strings list fin_maps.

Set Warnings "-register-all".

Local Open Scope string_scope.
Local Open Scope Z_scope.

(** ** JavaScript strings *)

Module Js.

(** The double quote character, and a string made of it. *)
Definition dquote : ascii := "034"%char.
Definition backslash : ascii := "092"%char.
Definition space : ascii := " "%char.

(** [c.toUpperCase()] on one ASCII character. *)
Definition upper_ascii (c : ascii) : ascii :=
  let n := nat_of_ascii c in
  if ((97 <=? n) && (n <=? 122))%nat then ascii_of_nat (n - 32) else c.

(** [c.toLowerCase()] on one ASCII character. *)
Definition lower_ascii (c : ascii) : ascii :=
  let n := nat_of_ascii c in
  if ((65 <=? n) && (n <=? 90))%nat then ascii_of_nat (n + 32) else c.

(** [s.toUpperCase()], on the ASCII range: exact for a string of ASCII
    characters; a character outside it is left as it is, where JavaScript
    maps some of them. *)
Fixpoint toUpperCase (s : string) : string :=
  match s with
  | EmptyString => EmptyString
  | String c s' => String (upper_ascii c) (toUpperCase s')
  end.

Fixpoint toLowerCase (s : string) : string :=
  match s with
  | EmptyString => EmptyString
  | String c s' => String (lower_ascii c) (toLowerCase s')
  end.

(** [s.split(sep)] for a one-character separator: every occurrence of the
    separator cuts; the empty string gives one empty piece. *)
Fixpoint split (sep : ascii) (s : string) : list string :=
  match s with
  | EmptyString => [EmptyString]
  | String c s' =>
      if Ascii.eqb c sep then EmptyString :: split sep s'
      else match split sep s' with
           | [] => [String c EmptyString]
           | piece :: pieces => String c piece :: pieces
           end
  end.

(** [s.split(sep, limit)]: the pieces of [s.split(sep)], truncated to the
    first [limit] ones (the rest of the string is dropped, not kept in the
    last piece). *)
Definition split_limit (sep : ascii) (limit : nat) (s : string) : list string :=
  take limit (split sep s).

(** [s.includes(" ")]. *)
Fixpoint has_space (s : string) : bool :=
  match s with
  | EmptyString => false
  | String c s' => Ascii.eqb c space || has_space s'
  end.

(** [arr.includes(x)] on an array of strings. *)
Definition includes (arr : list string) (x : string) : bool :=
  existsb (String.eqb x) arr.

End Js.

(** ** Thrown values *)

(** An error object: its [name], its [message] and its optional [cause].
    [new Error(m)] has the name [Error] and no cause. *)
Inductive exn : Type :=
| JsError (name : string) (message : string) (cause : option exn).

Definition Error (message : string) : exn := JsError "Error" message None.

(** ** decodeRoute *)

Record Decoded : Type := mkDecoded {
  d_method : string;
  d_path : option string   (* [undefined] when [split] gave one piece *)
}.

Definition verbs : list string := ["GET"; "POST"; "PUT"; "DELETE"; "PATCH"].

Definition invalid_method_message (method route : string) : string :=
  "Invalid HTTP method: " +:+ method +:+ " at route: " +:+ route.

Definition decodeRoute (method : option string) (route : string) : exn + Decoded :=
  let tokens := Js.split_limit Js.space 2 route in
  if (length tokens =? 1)%nat && bool_decide (method = None) then
    inr (mkDecoded (match method with None => "GET" | Some m => m end) (Some route))
  else
    let _method := default EmptyString (tokens !! 0%nat) in
    let path := tokens !! 1%nat in
    let method := Js.toUpperCase _method in
    if negb (Js.includes verbs method) then
      inl (Error (invalid_method_message method route))
    else
      inr (mkDecoded method path).

(** ** Payloads *)

(** The values a body can be.  Numbers are the integer-valued ones.  The four
    platform objects carry the identity of the object. *)
Inductive value : Type :=
| VUndefined
| VNull
| VBool (b : bool)
| VNumber (n : Z)
| VString (s : string)
| VArray (items : list value)
| VObject (props : list (string * value))
| VReadableStream (id : nat)
| VFormData (id : nat)
| VArrayBuffer (id : nat)
| VURLSearchParams (id : nat).

(** JavaScript truthiness, as in [body ? ... : ...]. *)
Definition truthy (v : value) : bool :=
  match v with
  | VUndefined | VNull => false
  | VBool b => b
  | VNumber n => negb (n =? 0)
  | VString s => negb (String.eqb s "")
  | _ => true
  end.

(** The test of lines 94-98: [typeof body === "string"] or an instance of
    [ReadableStream], [FormData], [ArrayBuffer], [URLSearchParams]. *)
Definition is_passthrough (v : value) : bool :=
  match v with
  | VString _ | VReadableStream _ | VFormData _ | VArrayBuffer _
  | VURLSearchParams _ => true
  | _ => false
  end.

Module JSON.

Definition hex_digit (n : nat) : ascii :=
  if (n <? 10)%nat then ascii_of_nat (48 + n) else ascii_of_nat (87 + n).

(** The escape of one character inside a JSON string. *)
Definition escape_ascii (c : ascii) : string :=
  let n := nat_of_ascii c in
  if Ascii.eqb c Js.dquote then String Js.backslash (String Js.dquote "")
  else if Ascii.eqb c Js.backslash then String Js.backslash (String Js.backslash "")
  else if (n =? 8)%nat then String Js.backslash "b"
  else if (n =? 9)%nat then String Js.backslash "t"
  else if (n =? 10)%nat then String Js.backslash "n"
  else if (n =? 12)%nat then String Js.backslash "f"
  else if (n =? 13)%nat then String Js.backslash "r"
  else if (n <? 32)%nat then
    String Js.backslash
      ("u00" +:+ String (hex_digit (n / 16)) (String (hex_digit (n mod 16)) ""))
  else String c "".

Fixpoint escape (s : string) : string :=
  match s with
  | EmptyString => EmptyString
  | String c s' => escape_ascii c +:+ escape s'
  end.

Definition quote (s : string) : string :=
  String Js.dquote (escape s) +:+ String Js.dquote "".

Fixpoint join (sep : string) (l : list string) : string :=
  match l with
  | [] => ""
  | [x] => x
  | x :: l' => x +:+ sep +:+ join sep l'
  end.

Definition number_to_string (n : Z) : string :=
  NilZero.string_of_int (Z.to_int n).

(** The serialisation of a value; [None] is the [undefined] that
    [JSON.stringify] returns for [undefined]. *)
Fixpoint serialize (v : value) : option string :=
  match v with
  | VUndefined => None
  | VNull => Some "null"
  | VBool b => Some (if b then "true" else "false")
  | VNumber n => Some (number_to_string n)
  | VString s => Some (quote s)
  | VArray items =>
      Some ("[" +:+ join "," (map (fun i => default "null" (serialize i)) items) +:+ "]")
  | VObject props =>
      Some ("{" +:+
            join "," (omap (fun kv => match serialize (snd kv) with
                                      | Some t => Some (quote (fst kv) +:+ ":" +:+ t)
                                      | None => None
                                      end) props)
            +:+ "}")
  | VReadableStream _ | VFormData _ | VArrayBuffer _ | VURLSearchParams _ =>
      Some "{}"
  end.

(** [JSON.stringify(v)]. *)
Definition stringify (v : value) : value :=
  match serialize v with
  | Some s => VString s
  | None => VUndefined
  end.

End JSON.

(** ** Requests *)

Abbreviation Headers := (gmap string string).

(** [JSON.stringify] and [JSON.parse] are told from any other function by
    identity ([encoder === JSON.stringify], [decoder === JSON.parse]). *)
Inductive Encoder : Type :=
| JSON_stringify
| CustomEncoder (f : value -> exn + string).

Inductive Decoder : Type :=
| JSON_parse
| CustomDecoder (f : string -> exn + value).

Inductive QueryValue : Type :=
| QString (s : string)
| QNumber (n : Z)
| QBoolean (b : bool).

(** [value.toString()] of a query parameter. *)
Definition query_toString (q : QueryValue) : string :=
  match q with
  | QString s => s
  | QNumber n => JSON.number_to_string n
  | QBoolean b => if b then "true" else "false"
  end.

(** A hook is an object of the caller; requests and configurations hold
    references to hooks. *)
Definition HookRef : Type := nat.

(** The [hooks] field of a request: an array, or the plain object with the
    keys [0], [1], ... that the spread of arrays in [mergeObjects] builds
    (which is not iterable). *)
Inductive HooksField : Type :=
| HooksArray (l : list HookRef)
| HooksIndexed (l : list HookRef).

Definition hooks_entries (h : option HooksField) : list HookRef :=
  match h with
  | None => []
  | Some (HooksArray l) | Some (HooksIndexed l) => l
  end.

(** The data of a request ([BaseRequest]); its methods are the functions
    below that take the receiver as their last argument. *)
Record Request : Type := mkRequest {
  headers : option Headers;
  baseUrl : string;
  method : option string;
  path : option string;
  decoder : option Decoder;
  encoder : option Encoder;
  queryParameters : option (list (string * QueryValue));
  timeout : option N;
  body : value;
  hooks : option HooksField;
  abortSignal : option nat
}.

(** [Partial<Request>]: [None] is a key that is not there, [Some v] a key
    that is there with the value [v] (which may itself be [undefined]). *)
Record PartialRequest : Type := mkPartial {
  p_headers : option (option Headers);
  p_baseUrl : option string;
  p_method : option (option string);
  p_path : option (option string);
  p_decoder : option (option Decoder);
  p_encoder : option (option Encoder);
  p_queryParameters : option (option (list (string * QueryValue)));
  p_timeout : option (option N);
  p_body : option value;
  p_hooks : option (option HooksField);
  p_abortSignal : option (option nat)
}.

Definition emptyPartial : PartialRequest :=
  mkPartial None None None None None None None None None None None.

(** [mergeObjects(a, b)] = [{...a, ...b}] on two header objects, either of
    which may be [undefined]: the entries of [b] win. *)
Definition mergeObjects (a b : option Headers) : Headers :=
  default ∅ b ∪ default ∅ a.

(** [{...a, ...b}] on objects whose order of keys matters: the keys of [a]
    keep their place and take the value [b] gives them, the new keys of [b]
    follow. *)
Fixpoint assoc {V} (k : string) (l : list (string * V)) : option V :=
  match l with
  | [] => None
  | (k', v) :: l' => if String.eqb k k' then Some v else assoc k l'
  end.

Definition spread_entries {V} (a b : list (string * V)) : list (string * V) :=
  map (fun kv => (fst kv, default (snd kv) (assoc (fst kv) b))) a
  ++ filter (fun kv => bool_decide (assoc (fst kv) a = None) = true) b.

Definition mergeObjects_query (a b : option (list (string * QueryValue)))
  : list (string * QueryValue) :=
  spread_entries (default [] a) (default [] b).

(** [{...a, ...b}] on two arrays (or objects with index keys): index by
    index, the entry of [b] where it has one, else the entry of [a]. *)
Definition mergeObjects_hooks (a b : option HooksField) : HooksField :=
  let eb := hooks_entries b in
  HooksIndexed (eb ++ drop (length eb) (hooks_entries a)).

(** [mergeObjects(this, request)] on a request and a partial one: every key
    of the partial replaces the receiver's. *)
Definition mergeObjects_request (a : Request) (b : PartialRequest) : Request :=
  {| headers := default (headers a) (p_headers b);
     baseUrl := default (baseUrl a) (p_baseUrl b);
     method := default (method a) (p_method b);
     path := default (path a) (p_path b);
     decoder := default (decoder a) (p_decoder b);
     encoder := default (encoder a) (p_encoder b);
     queryParameters := default (queryParameters a) (p_queryParameters b);
     timeout := default (timeout a) (p_timeout b);
     body := default (body a) (p_body b);
     hooks := default (hooks a) (p_hooks b);
     abortSignal := default (abortSignal a) (p_abortSignal b) |}.

(** The in-place setters, as functions from the receiver to the receiver
    after the call. *)
Definition setHeaders (h : option Headers) (this : Request) : Request :=
  {| headers := h; baseUrl := baseUrl this; method := method this;
     path := path this; decoder := decoder this; encoder := encoder this;
     queryParameters := queryParameters this; timeout := timeout this;
     body := body this; hooks := hooks this; abortSignal := abortSignal this |}.

Definition addHeaders (h : Headers) (this : Request) : Request :=
  setHeaders (Some (mergeObjects (headers this) (Some h))) this.

Definition setQueryParameters (q : option (list (string * QueryValue))) (this : Request)
  : Request :=
  {| headers := headers this; baseUrl := baseUrl this; method := method this;
     path := path this; decoder := decoder this; encoder := encoder this;
     queryParameters := q; timeout := timeout this;
     body := body this; hooks := hooks this; abortSignal := abortSignal this |}.

Definition addQueryParameters (q : list (string * QueryValue)) (this : Request) : Request :=
  setQueryParameters (Some (mergeObjects_query (queryParameters this) (Some q))) this.

Definition setBody (b : value) (this : Request) : Request :=
  {| headers := headers this; baseUrl := baseUrl this; method := method this;
     path := path this; decoder := decoder this; encoder := encoder this;
     queryParameters := queryParameters this; timeout := timeout this;
     body := b; hooks := hooks this; abortSignal := abortSignal this |}.

Definition setEncoder (e : Encoder) (this : Request) : Request :=
  {| headers := headers this; baseUrl := baseUrl this; method := method this;
     path := path this; decoder := decoder this; encoder := Some e;
     queryParameters := queryParameters this; timeout := timeout this;
     body := body this; hooks := hooks this; abortSignal := abortSignal this |}.

Definition setDecoder (d : Decoder) (this : Request) : Request :=
  {| headers := headers this; baseUrl := baseUrl this; method := method this;
     path := path this; decoder := Some d; encoder := encoder this;
     queryParameters := queryParameters this; timeout := timeout this;
     body := body this; hooks := hooks this; abortSignal := abortSignal this |}.

Definition setPath (p : string) (this : Request) : Request :=
  {| headers := headers this; baseUrl := baseUrl this; method := method this;
     path := Some p; decoder := decoder this; encoder := encoder this;
     queryParameters := queryParameters this; timeout := timeout this;
     body := body this; hooks := hooks this; abortSignal := abortSignal this |}.

Definition setMethod (m : string) (this : Request) : Request :=
  {| headers := headers this; baseUrl := baseUrl this; method := Some m;
     path := path this; decoder := decoder this; encoder := encoder this;
     queryParameters := queryParameters this; timeout := timeout this;
     body := body this; hooks := hooks this; abortSignal := abortSignal this |}.

Definition setBaseUrl (u : string) (this : Request) : Request :=
  {| headers := headers this; baseUrl := u; method := method this;
     path := path this; decoder := decoder this; encoder := encoder this;
     queryParameters := queryParameters this; timeout := timeout this;
     body := body this; hooks := hooks this; abortSignal := abortSignal this |}.

Definition setTimeout (t : N) (this : Request) : Request :=
  {| headers := headers this; baseUrl := baseUrl this; method := method this;
     path := path this; decoder := decoder this; encoder := encoder this;
     queryParameters := queryParameters this; timeout := Some t;
     body := body this; hooks := hooks this; abortSignal := abortSignal this |}.

Definition setAbortSignal (s : nat) (this : Request) : Request :=
  {| headers := headers this; baseUrl := baseUrl this; method := method this;
     path := path this; decoder := decoder this; encoder := encoder this;
     queryParameters := queryParameters this; timeout := timeout this;
     body := body this; hooks := hooks this; abortSignal := Some s |}.

Definition setHooks (h : option HooksField) (this : Request) : Request :=
  {| headers := headers this; baseUrl := baseUrl this; method := method this;
     path := path this; decoder := decoder this; encoder := encoder this;
     queryParameters := queryParameters this; timeout := timeout this;
     body := body this; hooks := h; abortSignal := abortSignal this |}.

(** [if (request.headers)], [if (request.hooks)]: the key is there and its
    value is an object. *)
Definition given {A} (field : option (option A)) : option A :=
  match field with
  | Some (Some a) => Some a
  | _ => None
  end.

(** [this.merge(request)]. *)
Definition merge (request : PartialRequest) (this : Request) : Request :=
  let newRequest := mergeObjects_request this request in
  let newRequest :=
    match given (p_headers request) with
    | Some h => setHeaders (Some (mergeObjects (headers this) (Some h))) newRequest
    | None => newRequest
    end in
  let newRequest :=
    match given (p_hooks request) with
    | Some k => setHooks (Some (mergeObjects_hooks (hooks this) (Some k))) newRequest
    | None => newRequest
    end in
  newRequest.

(** [createRequest(base)] copies the fields of [base] next to the methods. *)
Definition createRequest (base : Request) : Request := base.

(** ** Results, hooks and configuration *)

Record Result : Type := mkResult {
  rs_headers : Headers;
  statusCode : Z;
  data : value
}.

(** [createResult(base)]. *)
Definition createResult (base : Result) : Result := base.

Record Hook : Type := mkHook {
  beforeRequest : option (Request -> exn + Request);
  afterRequest : option (Request -> Result -> exn + Result)
}.

(** [ClientBuilderOptions]: the global scope. *)
Record ClientBuilderOptions : Type := mkOptions {
  o_hooks : option (list HookRef);
  o_headers : option Headers;
  o_timeout : option N
}.

(** Modelled from the spec: the type [PureRoute] of [types/builder], which is
    not among the sources; a structured route descriptor is the record
    [{method?, route, headers?, timeout?, body?, queryParameters?, hooks?}]. *)
Record PureRoute : Type := mkPureRoute {
  pr_method : option string;
  pr_route : string;
  pr_headers : option Headers;
  pr_timeout : option N;
  pr_body : value;
  pr_queryParameters : option (list (string * QueryValue));
  pr_hooks : option (list HookRef)
}.

(** What a route's constructor returns: [PureRoute<any> | string]. *)
Inductive RouteResult : Type :=
| StringRoute (route : string)
| StructuredRoute (route : PureRoute).

Record RouteDef : Type := mkRouteDef {
  _constructor : list value -> exn + RouteResult
}.

Record Resource : Type := mkResource {
  prefix : option string;
  r_hooks : option (list HookRef);
  r_headers : option Headers;
  r_timeout : option N;
  routes : list (string * RouteDef)
}.

(** ** The transport *)

(** The URL object whose [toString()] is handed to [fetch]: what [new URL]
    made of the text it was given, and the search parameters appended to
    it, in order. *)
Record Url : Type := mkUrl {
  href : string;
  searchParams : list (string * string)
}.

Inductive Signal : Type :=
| GivenSignal (id : nat)           (* [request.abortSignal] *)
| TimeoutSignal (ms : N).          (* [AbortSignal.timeout(ms)] *)

(** The arguments of one call of [fetch]. *)
Record FetchCall : Type := mkFetchCall {
  f_url : Url;
  f_method : string;
  f_body : value;
  f_headers : option Headers;
  f_signal : option Signal
}.

(** The response of the transport: [status], [headers], and what awaiting
    [json()] and [text()] gives. *)
Record Response : Type := mkResponse {
  resp_status : Z;
  resp_headers : Headers;
  resp_json : exn + value;
  resp_text : exn + string
}.

(** ** The monad of a call: a log of what was invoked, and rejection *)

Inductive Event : Type :=
| EvBefore (h : HookRef)
| EvFetch (c : FetchCall)
| EvAfter (h : HookRef).

Definition M (A : Type) : Type := list Event -> (exn + A) * list Event.

Definition ret {A} (a : A) : M A := fun log => (inr a, log).

Definition bind {A B} (m : M A) (k : A -> M B) : M B :=
  fun log =>
    match m log with
    | (inl e, log') => (inl e, log')
    | (inr a, log') => k a log'
    end.

Definition lift {A} (r : exn + A) : M A := fun log => (r, log).

Definition tell (e : Event) : M unit := fun log => (inr tt, (log ++ [e])%list).

Declare Scope call_scope.
Delimit Scope call_scope with call.
Notation "x <- m ;; k" := (bind m (fun x => k))
  (at level 100, m at next level, right associativity) : call_scope.
Notation "m ;;; k" := (bind m (fun _ => k))
  (at level 100, right associativity) : call_scope.

(** The events of a run from an empty log, and its outcome. *)
Definition outcome {A} (m : M A) : exn + A := fst (m []).
Definition trace {A} (m : M A) : list Event := snd (m []).

(** [a ?? b]. *)
Definition nullish {A} (a b : option A) : option A :=
  match a with
  | Some x => Some x
  | None => b
  end.

(** The object literals [global] and [res] of [createClient]. *)
Record Scope : Type := mkScope {
  s_hooks : list HookRef;
  s_headers : Headers;
  s_timeout : option N
}.

Definition global_scope (options : option ClientBuilderOptions) : Scope :=
  {| s_hooks := default [] (options ≫= o_hooks);
     s_headers := default ∅ (options ≫= o_headers);
     s_timeout := options ≫= o_timeout |}.

Definition resource_scope (resource : Resource) : Scope :=
  {| s_hooks := default [] (r_hooks resource);
     s_headers := default ∅ (r_headers resource);
     s_timeout := r_timeout resource |}.

Definition content_type : string := "Content-Type".
Definition application_json : string := "application/json".

(** [[...requestHooks]]: an array spreads; the object that [merge] leaves in
    [hooks] is not iterable. *)
Definition iterate_hooks (h : option HooksField) : exn + list HookRef :=
  match h with
  | None => inr []
  | Some (HooksArray l) => inr l
  | Some (HooksIndexed _) => inl (JsError "TypeError" "requestHooks is not iterable" None)
  end.

Definition is_JSON_stringify (e : Encoder) : bool :=
  match e with
  | JSON_stringify => true
  | CustomEncoder _ => false
  end.

(** The object literal [{headers: h}]. *)
Definition with_headers (h : Headers) : PartialRequest :=
  mkPartial (Some (Some h)) None None None None None None None None None None.

(** [encoder(body)]. *)
Definition apply_encoder (encoder : Encoder) (body : value) : exn + value :=
  match encoder with
  | JSON_stringify => inr (JSON.stringify body)
  | CustomEncoder f => match f body with
                       | inl e => inl e
                       | inr s => inr (VString s)
                       end
  end.

(** The [body] argument of [fetch], lines 92-99. *)
Definition fetch_body (encoder : Encoder) (body : value) : exn + value :=
  if truthy body then
    if is_passthrough body then inr body
    else apply_encoder encoder body
  else inr VUndefined.

(** The [signal] argument of [fetch], lines 101-103, for a delay that
    [AbortSignal.timeout] accepts (every platform accepts a delay below
    2^32 ms); for another delay [AbortSignal.timeout] throws, which is
    left out here. *)
Definition fetch_signal (request : Request) : option Signal :=
  match abortSignal request with
  | Some s => Some (GivenSignal s)
  | None =>
      match timeout request with
      | Some t => if negb (t =? 0)%N then Some (TimeoutSignal t) else None
      | None => None
      end
  end.

(** Lines 108-110: the body of the response under the decoder. *)
Definition parse_body (decoder : Decoder) (res : Response) : exn + value :=
  match decoder with
  | JSON_parse => resp_json res
  | CustomDecoder f => match resp_text res with
                       | inl e => inl e
                       | inr t => f t
                       end
  end.

(** The first [then]: decode the response, lines 105-119. *)
Definition decode_response (decoder : Decoder) (res : Response) : exn + Result :=
  match parse_body decoder res with
  | inl e => inl e                       (* [catch (e) { throw e }] *)
  | inr d => inr (createResult {| rs_headers := resp_headers res;
                                  statusCode := resp_status res;
                                  data := d |})
  end.

(** Line 29: the decoding of what the constructor returned. *)
Definition decode_result (result : RouteResult) : exn + Decoded :=
  match result with
  | StringRoute route => decodeRoute None route
  | StructuredRoute r => decodeRoute (pr_method r) (pr_route r)
  end.

(** The initial request of a call, lines 30-49. *)
Definition initial_request (baseUrl : string) (global res : Scope)
    (resourceStandardHeaders : Headers) (result : RouteResult) (decoded : Decoded)
  : Request :=
  match result with
  | StringRoute _ =>
      createRequest
        {| headers := Some resourceStandardHeaders;
           baseUrl := baseUrl;
           method := Some (d_method decoded);
           path := d_path decoded;
           decoder := Some JSON_parse;
           encoder := Some JSON_stringify;
           queryParameters := Some [];
           timeout := nullish (s_timeout res) (s_timeout global);
           body := VUndefined;
           hooks := None;
           abortSignal := None |}
  | StructuredRoute result =>
      createRequest
        {| headers := Some (mergeObjects (Some resourceStandardHeaders)
                                         (Some (default ∅ (pr_headers result))));
           baseUrl := baseUrl;
           method := Some (default (d_method decoded) (pr_method result));
           path := d_path decoded;
           decoder := None;
           encoder := None;
           queryParameters := pr_queryParameters result;
           timeout := nullish (pr_timeout result)
                              (nullish (s_timeout res) (s_timeout global));
           body := pr_body result;
           hooks := HooksArray <$> pr_hooks result;
           abortSignal := None |}
  end.

Section Pipeline.

(** The hook objects behind the references, and the platform: [fetch] and
    the constructor [new URL], which throws on a text that is not a URL. *)
Variable hook_at : HookRef -> Hook.
Variable fetch : FetchCall -> exn + Response.
Variable new_URL : string -> exn + string.

Local Open Scope call_scope.

(** The loop of lines 55-59. *)
Fixpoint before_phase (hooks : list HookRef) (request : Request) : M Request :=
  match hooks with
  | [] => ret request
  | hook :: hooks' =>
      match beforeRequest (hook_at hook) with
      | Some f =>
          tell (EvBefore hook) ;;;
          request' <- lift (f request) ;;
          before_phase hooks' request'
      | None => before_phase hooks' request
      end
  end.

(** The loop of lines 121-125. *)
Fixpoint after_phase (hooks : list HookRef) (request : Request) (res : Result) : M Result :=
  match hooks with
  | [] => ret res
  | hook :: hooks' =>
      match afterRequest (hook_at hook) with
      | Some f =>
          tell (EvAfter hook) ;;;
          res' <- lift (f request res) ;;
          after_phase hooks' request res'
      | None => after_phase hooks' request res
      end
  end.

(** Lines 68-72: the text given to [new URL]. *)
Definition full_path (resource : Resource) (request : Request) : string :=
  let fullPath := baseUrl request in
  let fullPath :=
    match prefix resource with
    | Some p => if negb (String.eqb p "") then fullPath +:+ p else fullPath
    | None => fullPath
    end in
  fullPath +:+ default "undefined" (path request).

(** Lines 61-103: from the request the hooks returned to the arguments of
    [fetch].  The locals [method], [path], [body], [headers], [encoder] and
    [decoder] are read from the request before the Content-Type header is
    merged into it.  The result is the request after that merge, the
    decoder and the arguments. *)
Definition prepare (resource : Resource) (request : Request)
  : exn + (Request * Decoder * FetchCall) :=
  let method' := default "GET" (method request) in
  let body' := body request in
  let headers' := headers request in
  let encoder' := default JSON_stringify (encoder request) in
  let decoder' := default JSON_parse (decoder request) in
  match new_URL (full_path resource request) with
  | inl e => inl e
  | inr url =>
      let url :=
        {| href := url;
           searchParams :=
             match queryParameters request with
             | Some q => map (fun kv => (fst kv, query_toString (snd kv))) q
             | None => []
             end |} in
      let request :=
        if is_JSON_stringify encoder'
           && bool_decide (headers request ≫= (.!! content_type) = None)
        then merge (with_headers {[ content_type := application_json ]}) request
        else request in
      match fetch_body encoder' body' with
      | inl e => inl e
      | inr wire =>
          inr (request, decoder',
               {| f_url := url;
                  f_method := method';
                  f_body := wire;
                  f_headers := headers';
                  f_signal := fetch_signal request |})
      end
  end.

(** Lines 61-127: the call of [fetch] and the two [then]. *)
Definition send (resource : Resource) (hooks : list HookRef) (request : Request)
  : M Result :=
  prepared <- lift (prepare resource request) ;;
  let '(request, decoder', call) := prepared in
  tell (EvFetch call) ;;;
  res <- lift (fetch call) ;;
  res <- lift (decode_response decoder' res) ;;
  after_phase hooks request res.

(** The closure bound to one route, lines 25-128. *)
Definition route_call (baseUrl : string) (global : Scope) (resource : Resource)
    (routeDef : RouteDef) (args : list value) : M Result :=
  let res := resource_scope resource in
  let resourceStandardHeaders := mergeObjects (Some (s_headers global)) (Some (s_headers res)) in
  result <- lift (_constructor routeDef args) ;;
  decoded <- lift (decode_result result) ;;
  let request := initial_request baseUrl global res resourceStandardHeaders result decoded in
  requestHooks <- lift (iterate_hooks (hooks request)) ;;
  let hooks := (s_hooks global ++ s_hooks res ++ requestHooks)%list in
  request <- before_phase hooks request ;;
  send resource hooks request.

(** [createClient(baseUrl, config, options)]: for every resource and every
    route of it, the closure of that route. *)
Definition createClient (baseUrl : string) (config : list (string * Resource))
    (options : option ClientBuilderOptions)
  : list (string * list (string * (list value -> M Result))) :=
  let global := global_scope options in
  map (fun entry =>
         let resource := snd entry in
         (fst entry,
          map (fun route => (fst route, route_call baseUrl global resource (snd route)))
              (routes resource)))
      config.

(** [client[resourceName][routeName](...args)] for the names that
    [createClient] wrote into the objects; the names that a plain object
    inherits ([toString], ...) are left out. *)
Definition invoke (client : list (string * list (string * (list value -> M Result))))
    (resourceName routeName : string) (args : list value) : option (M Result) :=
  resourceClient ← assoc resourceName client;
  route ← assoc routeName resourceClient;
  Some (route args).

End Pipeline.

(** ** Requests as objects of a store

    [merge] rebuilt over a store of objects, to tell a new object from a
    mutated one: a request object refers to its [headers] object and to its
    [hooks] object, and [mergeObjects] allocates. *)

Module Store.

Definition loc : Type := positive.

(** A request object: the references to its [headers] and [hooks] objects,
    and its other fields (the [headers] and [hooks] of [c_fields] are not
    read). *)
Record RequestCell : Type := mkCell {
  c_headers : option loc;
  c_hooks : option loc;
  c_fields : Request
}.

Record PartialCell : Type := mkPartialCell {
  pc_headers : option (option loc);
  pc_hooks : option (option loc);
  pc_fields : PartialRequest
}.

Record store : Type := mkStore {
  requests : gmap loc RequestCell;
  headerObjects : gmap loc Headers;
  hookObjects : gmap loc HooksField
}.

(** Reading a reference that may be [undefined]; the outer [None] is a
    reference to nothing. *)
Definition deref {A} (objects : gmap loc A) (l : option loc) : option (option A) :=
  match l with
  | None => Some None
  | Some l => Some <$> objects !! l
  end.

(** The value of the request object at [l]. *)
Definition read_request (σ : store) (l : loc) : option Request :=
  cell ← requests σ !! l;
  h ← deref (headerObjects σ) (c_headers cell);
  k ← deref (hookObjects σ) (c_hooks cell);
  Some (setHooks k (setHeaders h (c_fields cell))).




Definition alloc_headers (σ : store) (h : Headers) : store * loc :=
  let l := fresh (dom (headerObjects σ)) in
  ({| requests := requests σ;
      headerObjects := <[l := h]> (headerObjects σ);
      hookObjects := hookObjects σ |}, l).

Definition alloc_hooks (σ : store) (k : HooksField) : store * loc :=
  let l := fresh (dom (hookObjects σ)) in
  ({| requests := requests σ;
      headerObjects := headerObjects σ;
      hookObjects := <[l := k]> (hookObjects σ) |}, l).

Definition alloc_request (σ : store) (c : RequestCell) : store * loc :=
  let l := fresh (dom (requests σ)) in
  ({| requests := <[l := c]> (requests σ);
      headerObjects := headerObjects σ;
      hookObjects := hookObjects σ |}, l).

(** [this.merge(request)] in the store [σ]: the store after the call and
    the reference it returns. *)
Definition merge (σ : store) (this : loc) (request : PartialCell) : option (store * loc) :=
  cell ← requests σ !! this;
  (* const newRequest = mergeObjects(this, request) *)
  let newRequest :=
    {| c_headers := default (c_headers cell) (pc_headers request);
       c_hooks := default (c_hooks cell) (pc_hooks request);
       c_fields := mergeObjects_request (c_fields cell) (pc_fields request) |} in
  (* if (request.headers) newRequest.headers = mergeObjects(this.headers, request.headers) *)
  step1 ← match given (pc_headers request) with
          | Some lh =>
              a ← deref (headerObjects σ) (c_headers cell);
              b ← headerObjects σ !! lh;
              let '(σ', l) := alloc_headers σ (mergeObjects a (Some b)) in
              Some (σ', {| c_headers := Some l; c_hooks := c_hooks newRequest;
                           c_fields := c_fields newRequest |})
          | None => Some (σ, newRequest)
          end;
  let '(σ1, newRequest) := step1 in
  (* if (request.hooks) newRequest.hooks = mergeObjects(this.hooks, request.hooks) *)
  step2 ← match given (pc_hooks request) with
          | Some lk =>
              a ← deref (hookObjects σ1) (c_hooks cell);
              b ← hookObjects σ1 !! lk;
              let '(σ', l) := alloc_hooks σ1 (mergeObjects_hooks a (Some b)) in
              Some (σ', {| c_headers := c_headers newRequest; c_hooks := Some l;
                           c_fields := c_fields newRequest |})
          | None => Some (σ1, newRequest)
          end;
  let '(σ2, newRequest) := step2 in
  Some (alloc_request σ2 newRequest).

(** [this.addHeaders(headers)], with the object at [h] for [headers]:
    [this.headers = mergeObjects(this.headers, headers)].  The store after
    the call. *)
Definition addHeaders (σ : store) (this : loc) (h : loc) : option store :=
  cell ← requests σ !! this;
  a ← deref (headerObjects σ) (c_headers cell);
  b ← headerObjects σ !! h;
  let '(σ', l) := alloc_headers σ (mergeObjects a (Some b)) in
  Some {| requests :=
            <[this := {| c_headers := Some l; c_hooks := c_hooks cell;
                         c_fields := c_fields cell |}]> (requests σ');
          headerObjects := headerObjects σ';
          hookObjects := hookObjects σ' |}.

(** The store before [createClient] runs. *)
Definition empty_store : store :=
  {| requests := ∅; headerObjects := ∅; hookObjects := ∅ |}.

(** Lines 20-23: [resourceStandardHeaders], one new object for a resource,
    made when the client is created: the global headers overwritten by
    those of the resource.  The closures of all the routes of the resource
    hold its reference. *)
Definition resource_headers (σ : store) (global res : Scope) : store * loc :=
  alloc_headers σ (mergeObjects (Some (s_headers global)) (Some (s_headers res))).

(** Lines 30-49 over the store: the object of the initial request of a call
    of a route whose closure holds [resourceStandardHeaders] at [std].  For
    a string route the [headers] of the request are that very object (line
    31); for a structured route they are a new object, the spread of what
    the object at [std] holds at the time of the call and of the headers of
    the descriptor (lines 41-44). *)
Definition initial_request_object (σ : store) (std : loc) (baseUrl : string)
    (global res : Scope) (result : RouteResult) (decoded : Decoded)
  : option (store * loc) :=
  s ← headerObjects σ !! std;
  match result with
  | StringRoute _ =>
      Some (alloc_request σ
              {| c_headers := Some std;
                 c_hooks := None;
                 c_fields := initial_request baseUrl global res s result decoded |})
  | StructuredRoute r =>
      let '(σ1, h) :=
        alloc_headers σ (mergeObjects (Some s) (Some (default ∅ (pr_headers r)))) in
      let '(σ2, k) :=
        match pr_hooks r with
        | Some l => let '(σ', k) := alloc_hooks σ1 (HooksArray l) in (σ', Some k)
        | None => (σ1, None)
        end in
      Some (alloc_request σ2
              {| c_headers := Some h;
                 c_hooks := k;
                 c_fields := initial_request baseUrl global res s result decoded |})
  end.

(** [request.headers[k] = v], the assignment that a hook can make on the
    request it is given: a write into the headers object the request
    refers to. *)
Definition write_header (σ : store) (request : loc) (k v : string) : option store :=
  cell ← requests σ !! request;
  l ← c_headers cell;
  h ← headerObjects σ !! l;
  Some {| requests := requests σ;
          headerObjects := <[l := <[k := v]> h]> (headerObjects σ);
          hookObjects := hookObjects σ |}.

End Store.

(** ** Notions used to state the properties *)

(** Splitting on the first space: the text before it and all the text after
    it; [None] when there is no space. *)
Fixpoint split_first_space (s : string) : option (string * string) :=
  match s with
  | EmptyString => None
  | String c s' =>
      if Ascii.eqb c Js.space then Some (EmptyString, s')
      else match split_first_space s' with
           | Some (token, rest) => Some (String c token, rest)
           | None => None
           end
  end.

(** The piece that [split(" ", 2)] keeps as the path: the text between the
    first space and the second one. *)
Definition kept_path (rest : string) : string :=
  default EmptyString (head (Js.split Js.space rest)).

(** A string of ASCII characters only; on such a string [Js.toUpperCase]
    is [String.prototype.toUpperCase] exactly. *)
Fixpoint ascii_only (s : string) : bool :=
  match s with
  | EmptyString => true
  | String c s' => (nat_of_ascii c <? 128)%nat && ascii_only s'
  end.

(** Two strings that differ by the case of their letters only. *)
Definition eq_ignore_case (a b : string) : Prop :=
  Js.toLowerCase a = Js.toLowerCase b.

(** An error named [DecodeError] whose cause is [cause]. *)
Definition is_DecodeError_of (cause e : exn) : Prop :=
  exists message, e = JsError "DecodeError" message (Some cause).

(** The hooks a route descriptor carries. *)
Definition descriptor_hooks (result : RouteResult) : list HookRef :=
  match result with
  | StringRoute _ => []
  | StructuredRoute r => default [] (pr_hooks r)
  end.

(** The headers and the timeout a route descriptor carries. *)
Definition descriptor_headers (result : RouteResult) : Headers :=
  match result with
  | StringRoute _ => ∅
  | StructuredRoute r => default ∅ (pr_headers r)
  end.

Definition descriptor_timeout (result : RouteResult) : option N :=
  match result with
  | StringRoute _ => None
  | StructuredRoute r => pr_timeout r
  end.

(** The hooks of a list that have a [beforeRequest], an [afterRequest]. *)
Definition with_before (hook_at : HookRef -> Hook) (hooks : list HookRef) : list HookRef :=
  filter (fun h => is_Some (beforeRequest (hook_at h))) hooks.

Definition with_after (hook_at : HookRef -> Hook) (hooks : list HookRef) : list HookRef :=
  filter (fun h => is_Some (afterRequest (hook_at h))) hooks.

(** The first non-absent value of a list of optional values. *)
Fixpoint first_present {A} (l : list (option A)) : option A :=
  match l with
  | [] => None
  | Some a :: _ => Some a
  | None :: l' => first_present l'
  end.

(** Failure-propagating sequencing of two steps. *)
Definition and_then {A B} (x : exn + A) (k : A -> exn + B) : exn + B :=
  match x with
  | inl e => inl e
  | inr a => k a
  end.

(** The left fold of a list of hooks over a working request: every hook
    that has a [beforeRequest] replaces the working request with what it
    returns; a throw ends the fold. *)
Definition step_before (hook_at : HookRef -> Hook) (acc : exn + Request) (h : HookRef)
  : exn + Request :=
  and_then acc (fun r => match beforeRequest (hook_at h) with
                         | Some f => f r
                         | None => inr r
                         end).

Definition fold_before (hook_at : HookRef -> Hook) (hooks : list HookRef) (r : Request)
  : exn + Request :=
  fold_left (step_before hook_at) hooks (inr r).

(** The same fold over a working result. *)
Definition step_after (hook_at : HookRef -> Hook) (request : Request)
    (acc : exn + Result) (h : HookRef) : exn + Result :=
  and_then acc (fun res => match afterRequest (hook_at h) with
                           | Some f => f request res
                           | None => inr res
                           end).

Definition fold_after (hook_at : HookRef -> Hook) (request : Request)
    (hooks : list HookRef) (res : Result) : exn + Result :=
  fold_left (step_after hook_at request) hooks (inr res).

(** The list of hooks of a call. *)
Definition call_hooks (options : option ClientBuilderOptions) (resource : Resource)
    (result : RouteResult) : list HookRef :=
  (s_hooks (global_scope options) ++ s_hooks (resource_scope resource)
   ++ descriptor_hooks result)%list.

(** The request a call starts from. *)
Definition call_request (baseUrl : string) (options : option ClientBuilderOptions)
    (resource : Resource) (result : RouteResult) (decoded : Decoded) : Request :=
  initial_request baseUrl (global_scope options) (resource_scope resource)
    (mergeObjects (Some (s_headers (global_scope options)))
                  (Some (s_headers (resource_scope resource))))
    result decoded.


(** ** Sample configurations *)

Module Sample.

(** A [new URL] that takes every text as it is. *)
Definition URL : string -> exn + string := inr.

Definition null_response : Response :=
  {| resp_status := 200; resp_headers := ∅;
     resp_json := inr VNull; resp_text := inr "null" |}.

Definition fetch_null : FetchCall -> exn + Response := fun _ => inr null_response.

Definition no_hook : HookRef -> Hook := fun _ => mkHook None None.

(** The route [() => ({route: "POST /users", body: {name: "a"}})]. *)
Definition create_user : RouteDef :=
  mkRouteDef (fun _ =>
    inr (StructuredRoute
           (mkPureRoute None "POST /users" None None
              (VObject [("name", VString "a")]) None None))).

Definition users : Resource :=
  mkResource None None None None [("create", create_user)].

(** The text [{"name":"a"}]. *)
Definition name_a_json : string :=
  "{" +:+ JSON.quote "name" +:+ ":" +:+ JSON.quote "a" +:+ "}".

(** What [JSON.parse] throws on a text that stops too early. *)
Definition syntax_error : exn :=
  JsError "SyntaxError" "Unexpected end of JSON input" None.

(** A transport whose response does not parse as JSON. *)
Definition truncated_response : Response :=
  {| resp_status := 200; resp_headers := ∅;
     resp_json := inl syntax_error; resp_text := inr "{" |}.

Definition fetch_truncated : FetchCall -> exn + Response :=
  fun _ => inr truncated_response.

(** The three layers of headers of the example: global [{A: "1"}],
    resource [{A: "2", B: "3"}], descriptor [{B: "4"}]. *)
Definition layered_options : ClientBuilderOptions :=
  mkOptions None (Some {[ "A" := "1" ]}) None.

Definition layered_route : RouteResult :=
  StructuredRoute
    (mkPureRoute None "/things" (Some {[ "B" := "4" ]}) None VUndefined None None).

Definition layered_resource : Resource :=
  mkResource None None (Some (<[ "A" := "2" ]> {[ "B" := "3" ]})) None
    [("list", mkRouteDef (fun _ => inr layered_route))].

(** A descriptor with a timeout of zero under a resource with a timeout of
    five seconds; one with a timeout of three seconds. *)
Definition timed_route (t : N) : RouteDef :=
  mkRouteDef (fun _ =>
    inr (StructuredRoute (mkPureRoute None "/slow" None (Some t) VUndefined None None))).

Definition timed_resource (t : N) : Resource :=
  mkResource None None None (Some 5000%N) [("slow", timed_route t)].

(** A descriptor with the body [b]. *)
Definition body_route (b : value) : RouteDef :=
  mkRouteDef (fun _ =>
    inr (StructuredRoute (mkPureRoute None "POST /echo" None None b None None))).

Definition body_resource (b : value) : Resource :=
  mkResource None None None None [("echo", body_route b)].

(** A hook that leaves its tag in the header [X-Seen] of the request and
    around the data of the result. *)
Definition tag_hook (tag : string) : Hook :=
  mkHook
    (Some (fun r =>
       inr (addHeaders
              {[ "X-Seen" := default "" (headers r ≫= (.!! "X-Seen")) +:+ tag ]} r)))
    (Some (fun _ res =>
       inr (mkResult (rs_headers res) (statusCode res)
              (VArray [data res; VString tag])))).

(** Hook 0 is global, hook 1 belongs to the resource, hook 2 to the
    descriptor. *)
Definition tagged_hooks : HookRef -> Hook :=
  fun h =>
    match h with
    | 0%nat => tag_hook "G"
    | 1%nat => tag_hook "R"
    | 2%nat => tag_hook "Q"
    | _ => mkHook None None
    end.

Definition tagged_options : ClientBuilderOptions := mkOptions (Some [0%nat]) None None.

Definition tagged_route : RouteDef :=
  mkRouteDef (fun _ =>
    inr (StructuredRoute
           (mkPureRoute None "/tagged" None None VUndefined None (Some [2%nat])))).

Definition tagged_resource : Resource :=
  mkResource None (Some [1%nat]) None None [("tagged", tagged_route)].

(** Hook 0 returns the request with the hooks 0 and 7 in its [hooks];
    hook 7 has both capabilities. *)
Definition growing_hooks : HookRef -> Hook :=
  fun h =>
    match h with
    | 0%nat => mkHook (Some (fun r => inr (setHooks (Some (HooksArray [0%nat; 7%nat])) r)))
                      None
    | 7%nat => tag_hook "late"
    | _ => mkHook None None
    end.

(** A request with the hooks 1 and 2 and the header [A], and the partial
    requests [{hooks: [3]}] and [{headers: {X: "1"}}]. *)
Definition plain_request : Request :=
  {| headers := Some {[ "A" := "0" ]}; baseUrl := "http://h"; method := Some "GET";
     path := Some "/"; decoder := None; encoder := None; queryParameters := None;
     timeout := None; body := VUndefined; hooks := Some (HooksArray [1%nat; 2%nat]);
     abortSignal := None |}.

Definition partial_hooks : PartialRequest :=
  mkPartial None None None None None None None None None
    (Some (Some (HooksArray [3%nat]))) None.

(** A store that holds [plain_request] at 1, with its headers object at 1
    and its hooks object at 1, and the headers object [{X: "1"}] at 2. *)
Definition plain_store : Store.store :=
  {| Store.requests :=
       {[ 1%positive := Store.mkCell (Some 1%positive) (Some 1%positive) plain_request ]};
     Store.headerObjects :=
       <[ 1%positive := {[ "A" := "0" ]} ]> {[ 2%positive := {[ "X" := "1" ]} ]};
     Store.hookObjects := {[ 1%positive := HooksArray [1%nat; 2%nat] ]} |}.


(** Hook 0 throws in its [beforeRequest]; every other hook leaves a tag. *)
Definition boom : exn := JsError "Error" "boom" None.

Definition failing_hooks : HookRef -> Hook :=
  fun h =>
    match h with
    | 0%nat => mkHook (Some (fun _ => inl boom)) None
    | _ => tag_hook "x"
    end.

(** Hook 1 throws in its [afterRequest]. *)
Definition failing_after_hooks : HookRef -> Hook :=
  fun h =>
    match h with
    | 1%nat => mkHook None (Some (fun _ _ => inl boom))
    | _ => tag_hook "x"
    end.

(** A transport that is down, and a [new URL] that refuses every text. *)
Definition network_error : exn := JsError "TypeError" "fetch failed" None.

Definition fetch_down : FetchCall -> exn + Response := fun _ => inl network_error.

Definition invalid_url : exn := JsError "TypeError" "Invalid URL" None.

Definition URL_refusing : string -> exn + string := fun _ => inl invalid_url.

(** A transport that answers 404 with a body that parses. *)
Definition not_found_response : Response :=
  {| resp_status := 404; resp_headers := {[ "x-request-id" := "7" ]};
     resp_json := inr (VObject [("error", VString "not found")]);
     resp_text := inr "ignored" |}.

Definition fetch_not_found : FetchCall -> exn + Response :=
  fun _ => inr not_found_response.

(** A resource with the prefix [/api] and a route with query parameters. *)
Definition search_route : RouteDef :=
  mkRouteDef (fun _ =>
    inr (StructuredRoute
           (mkPureRoute (Some "PUT") "GET /search" None None VUndefined
              (Some [("q", QString "a b"); ("page", QNumber 2); ("all", QBoolean true)])
              None))).

Definition api_resource : Resource :=
  mkResource (Some "/api") None None None
    [("search", search_route); ("create", create_user)].

(** The scopes of [layered_options] and [layered_resource], and a string
    route of that resource. *)
Definition layered_global : Scope := global_scope (Some layered_options).

Definition layered_scope : Scope := resource_scope layered_resource.

Definition login_route : RouteResult := StringRoute "/login".

(** A string route with a verb the code does not know. *)
Definition fetch_verb_route : RouteDef :=
  mkRouteDef (fun _ => inr (StringRoute "fetch /users")).

End Sample.

(** * Properties *)

(** ** Strings and [decodeRoute] *)

Lemma upper_lower_ascii c : Js.upper_ascii (Js.lower_ascii c) = Js.upper_ascii c.
Proof. destruct c as [[] [] [] [] [] [] [] []]; reflexivity. Qed.

Lemma lower_upper_ascii c : Js.lower_ascii (Js.upper_ascii c) = Js.lower_ascii c.
Proof. destruct c as [[] [] [] [] [] [] [] []]; reflexivity. Qed.

Lemma toUpperCase_toLowerCase s : Js.toUpperCase (Js.toLowerCase s) = Js.toUpperCase s.
Proof. induction s as [|c s IH]; simpl; [done|]. by rewrite upper_lower_ascii, IH. Qed.

Lemma toLowerCase_toUpperCase s : Js.toLowerCase (Js.toUpperCase s) = Js.toLowerCase s.
Proof. induction s as [|c s IH]; simpl; [done|]. by rewrite lower_upper_ascii, IH. Qed.

(** A token is uppercased to a verb exactly when it is that verb up to the
    case of its letters. *)
Lemma toUpperCase_verb token verb :
  verb ∈ verbs → Js.toUpperCase token = verb ↔ eq_ignore_case token verb.
Proof.
  intros Hv. unfold eq_ignore_case.
  assert (Hfix : Js.toUpperCase verb = verb).
  { unfold verbs in Hv. set_unfold in Hv. by destruct Hv as [->|[->|[->|[->|[->|[]]]]]]. }
  split; intros H.
  - by rewrite <- H, toLowerCase_toUpperCase.
  - rewrite <- (toUpperCase_toLowerCase token), H, toUpperCase_toLowerCase. exact Hfix.
Qed.

Lemma includes_verbs_spec m :
  Js.includes verbs m = true ↔ m ∈ verbs.
Proof.
  unfold Js.includes. rewrite existsb_exists. split.
  - intros (v & Hin & Heq). apply String.eqb_eq in Heq. subst v.
    by apply list_elem_of_In.
  - intros Hin. exists m. split; [by apply list_elem_of_In | apply String.eqb_refl].
Qed.

Lemma split_nonempty sep s : Js.split sep s ≠ [].
Proof.
  destruct s as [|c s]; simpl; [done|].
  destruct (Ascii.eqb c sep); [done|]. by destruct (Js.split sep s).
Qed.

Lemma split_no_space s : Js.has_space s = false → Js.split Js.space s = [s].
Proof.
  induction s as [|c s IH]; simpl; [done|].
  intros [Hc Hs]%orb_false_iff. rewrite Hc. by rewrite (IH Hs).
Qed.

Lemma split_first_space_None s :
  split_first_space s = None ↔ Js.has_space s = false.
Proof.
  induction s as [|c s IH]; simpl; [done|].
  destruct (Ascii.eqb c Js.space); simpl; [done|].
  destruct (split_first_space s) as [[t r]|]; [|tauto].
  split; [done|]. intros H. apply IH in H. done.
Qed.

Lemma split_first_space_Some s token rest :
  split_first_space s = Some (token, rest) →
  s = token +:+ String Js.space rest ∧ Js.has_space token = false
  ∧ Js.split Js.space s = token :: Js.split Js.space rest.
Proof.
  revert token. induction s as [|c s IH]; simpl; intros token H; [done|].
  destruct (Ascii.eqb c Js.space) eqn:Hc.
  - apply Ascii.eqb_eq in Hc. by simplify_eq.
  - destruct (split_first_space s) as [[t r]|] eqn:Hs; [|done]. simplify_eq.
    destruct (IH _ eq_refl) as (-> & Ht & Hsplit). simpl. rewrite Hc, Hsplit. done.
Qed.

Lemma kept_path_no_space rest : Js.has_space rest = false → kept_path rest = rest.
Proof. intros H. unfold kept_path. by rewrite split_no_space. Qed.

(** A route without a space and without a separate method is a [GET] of the
    route. *)
Lemma decodeRoute_bare_route route :
  Js.has_space route = false →
  decodeRoute None route = inr (mkDecoded "GET" (Some route)).
Proof.
  intros H. unfold decodeRoute, Js.split_limit. by rewrite split_no_space.
Qed.

Lemma decodeRoute_tokens method route token rest :
  split_first_space route = Some (token, rest) →
  decodeRoute method route =
    if Js.includes verbs (Js.toUpperCase token)
    then inr (mkDecoded (Js.toUpperCase token) (Some (kept_path rest)))
    else inl (Error (invalid_method_message (Js.toUpperCase token) route)).
Proof.
  intros H. destruct (split_first_space_Some _ _ _ H) as (_ & _ & Hsplit).
  unfold decodeRoute, Js.split_limit, kept_path. rewrite Hsplit.
  pose proof (split_nonempty Js.space rest) as Hne.
  destruct (Js.split Js.space rest) as [|p ps]; [done|]. simpl.
  match goal with |- context [negb ?b] => by destruct b end.
Qed.

(** A route with exactly one space whose token is a verb up to case decodes
    to the uppercased verb and the text after the space. *)
Lemma decodeRoute_verb method route token rest verb :
  split_first_space route = Some (token, rest) →
  Js.has_space rest = false →
  verb ∈ verbs → eq_ignore_case token verb →
  decodeRoute method route = inr (mkDecoded verb (Some rest)).
Proof.
  intros Hs Hrest Hv Hci. rewrite (decodeRoute_tokens _ _ _ _ Hs).
  apply toUpperCase_verb in Hci; [|done]. rewrite Hci, kept_path_no_space by done.
  apply includes_verbs_spec in Hv. by rewrite Hv.
Qed.

(** Any other token is refused, with a message that holds the uppercased
    token and the whole route. *)
Lemma decodeRoute_invalid method route token rest :
  split_first_space route = Some (token, rest) →
  (∀ verb, verb ∈ verbs → ¬ eq_ignore_case token verb) →
  decodeRoute method route
  = inl (Error ("Invalid HTTP method: " +:+ Js.toUpperCase token +:+ " at route: " +:+ route)).
Proof.
  intros Hs Hno. rewrite (decodeRoute_tokens _ _ _ _ Hs).
  destruct (Js.includes verbs (Js.toUpperCase token)) eqn:Hin; [|done].
  apply includes_verbs_spec in Hin. exfalso. apply (Hno _ Hin).
  by apply toUpperCase_verb.
Qed.

(** ** The two phases of the hooks *)

Section Phases.

Variable hook_at : HookRef -> Hook.
Variable fetch : FetchCall -> exn + Response.
Variable new_URL : string -> exn + string.

Lemma fold_before_inl hooks e :
  fold_left (step_before hook_at) hooks (inl e) = inl e.
Proof. induction hooks as [|h hooks IH]; simpl; done. Qed.

Lemma fold_after_inl request hooks e :
  fold_left (step_after hook_at request) hooks (inl e) = inl e.
Proof. induction hooks as [|h hooks IH]; simpl; done. Qed.

(** The loop of the before phase computes the fold. *)
Lemma before_phase_outcome hooks request log :
  fst (before_phase hook_at hooks request log) = fold_before hook_at hooks request.
Proof.
  unfold fold_before. revert request log.
  induction hooks as [|h hooks IH]; intros request log; simpl; [done|].
  destruct (beforeRequest (hook_at h)) as [f|]; [|by apply IH].
  unfold bind, tell, lift; simpl.
  destruct (f request) as [e|r']; simpl; [by rewrite fold_before_inl | by apply IH].
Qed.

Lemma after_phase_outcome hooks request res log :
  fst (after_phase hook_at hooks request res log) = fold_after hook_at request hooks res.
Proof.
  unfold fold_after. revert res log.
  induction hooks as [|h hooks IH]; intros res log; simpl; [done|].
  destruct (afterRequest (hook_at h)) as [f|]; [|by apply IH].
  unfold bind, tell, lift; simpl.
  destruct (f request res) as [e|r']; simpl; [by rewrite fold_after_inl | by apply IH].
Qed.

(** A phase that succeeds has called, in the order of the list, every hook
    that has the capability. *)
Lemma before_phase_success hooks request log request' log' :
  before_phase hook_at hooks request log = (inr request', log') →
  log' = (log ++ map EvBefore (with_before hook_at hooks))%list.
Proof.
  revert request log.
  induction hooks as [|h hooks IH]; intros request log; simpl.
  - intros [= _ <-]. by rewrite app_nil_r.
  - unfold with_before. rewrite filter_cons.
    destruct (beforeRequest (hook_at h)) as [f|] eqn:Hf.
    + rewrite decide_True by done. unfold bind, tell, lift; simpl.
      destruct (f request) as [e|r']; [done|].
      intros H. apply IH in H. rewrite H. by rewrite <- app_assoc.
    + rewrite decide_False by (by intros [? ?]). apply IH.
Qed.

Lemma after_phase_success hooks request res log res' log' :
  after_phase hook_at hooks request res log = (inr res', log') →
  log' = (log ++ map EvAfter (with_after hook_at hooks))%list.
Proof.
  revert res log.
  induction hooks as [|h hooks IH]; intros res log; simpl.
  - intros [= _ <-]. by rewrite app_nil_r.
  - unfold with_after. rewrite filter_cons.
    destruct (afterRequest (hook_at h)) as [f|] eqn:Hf.
    + rewrite decide_True by done. unfold bind, tell, lift; simpl.
      destruct (f request res) as [e|r']; [done|].
      intros H. apply IH in H. rewrite H. by rewrite <- app_assoc.
    + rewrite decide_False by (by intros [? ?]). apply IH.
Qed.

(** Whatever its outcome, a phase only adds calls of hooks of its list. *)
Lemma before_phase_events hooks request log ev :
  ev ∈ snd (before_phase hook_at hooks request log) →
  ev ∈ log ∨ ∃ h, ev = EvBefore h ∧ h ∈ hooks.
Proof.
  revert request log.
  induction hooks as [|h hooks IH]; intros request log; simpl; [by left|].
  destruct (beforeRequest (hook_at h)) as [f|].
  - unfold bind, tell, lift; simpl. destruct (f request) as [e|r']; simpl.
    + intros [?|Hs]%elem_of_app; [by left|].
      apply list_elem_of_singleton in Hs as ->.
      right. exists h. split; [done|]. apply list_elem_of_here.
    + intros [[?|Hs]%elem_of_app|(h' & -> & ?)]%IH.
      * by left.
      * apply list_elem_of_singleton in Hs as ->.
        right. exists h. split; [done|]. apply list_elem_of_here.
      * right. exists h'. split; [done|]. by apply list_elem_of_further.
  - intros [?|(h' & -> & ?)]%IH; [by left|].
    right. exists h'. split; [done|]. by apply list_elem_of_further.
Qed.

Lemma after_phase_events hooks request res log ev :
  ev ∈ snd (after_phase hook_at hooks request res log) →
  ev ∈ log ∨ ∃ h, ev = EvAfter h ∧ h ∈ hooks.
Proof.
  revert res log.
  induction hooks as [|h hooks IH]; intros res log; simpl; [by left|].
  destruct (afterRequest (hook_at h)) as [f|].
  - unfold bind, tell, lift; simpl. destruct (f request res) as [e|r']; simpl.
    + intros [?|Hs]%elem_of_app; [by left|].
      apply list_elem_of_singleton in Hs as ->.
      right. exists h. split; [done|]. apply list_elem_of_here.
    + intros [[?|Hs]%elem_of_app|(h' & -> & ?)]%IH.
      * by left.
      * apply list_elem_of_singleton in Hs as ->.
        right. exists h. split; [done|]. apply list_elem_of_here.
      * right. exists h'. split; [done|]. by apply list_elem_of_further.
  - intros [?|(h' & -> & ?)]%IH; [by left|].
    right. exists h'. split; [done|]. by apply list_elem_of_further.
Qed.

(** A phase keeps what the log already holds. *)
Lemma after_phase_keeps hooks request res log ev :
  ev ∈ log → ev ∈ snd (after_phase hook_at hooks request res log).
Proof.
  revert res log.
  induction hooks as [|h hooks IH]; intros res log Hin; simpl; [done|].
  destruct (afterRequest (hook_at h)) as [f|]; [|by apply IH].
  unfold bind, tell, lift; simpl.
  destruct (f request res); simpl.
  - apply elem_of_app. by left.
  - apply IH, elem_of_app. by left.
Qed.

End Phases.

(** ** One call of a route *)

Section Calls.

Variable hook_at : HookRef -> Hook.
Variable fetch : FetchCall -> exn + Response.
Variable new_URL : string -> exn + string.

(** The hooks of the initial request are those of the descriptor. *)
Lemma iterate_initial_hooks baseUrl global res std result decoded :
  iterate_hooks (hooks (initial_request baseUrl global res std result decoded))
  = inr (descriptor_hooks result).
Proof.
  destruct result as [route|r]; simpl; [done|]. by destruct (pr_hooks r).
Qed.

(** A call whose constructor and decoding succeed is the before phase over
    the list of hooks followed by [send]. *)
Lemma route_call_phases baseUrl options resource routeDef args result decoded log :
  _constructor routeDef args = inr result →
  decode_result result = inr decoded →
  route_call hook_at fetch new_URL baseUrl (global_scope options) resource routeDef args log
  = bind (before_phase hook_at (call_hooks options resource result)
            (call_request baseUrl options resource result decoded))
         (send hook_at fetch new_URL resource (call_hooks options resource result)) log.
Proof.
  intros Hc Hd. unfold route_call, bind at 1 2 3, lift. rewrite Hc, Hd.
  fold (call_request baseUrl options resource result decoded).
  unfold call_request. rewrite iterate_initial_hooks. done.
Qed.

(** A call whose decoding fails rejects before any hook or transport is
    called. *)
Lemma route_call_decode_failure baseUrl options resource routeDef args result e log :
  _constructor routeDef args = inr result →
  decode_result result = inl e →
  route_call hook_at fetch new_URL baseUrl (global_scope options) resource routeDef args log
  = (inl e, log).
Proof. intros Hc Hd. unfold route_call, bind, lift. by rewrite Hc, Hd. Qed.

(** The outcome of [send], step by step. *)
Lemma send_outcome resource hooks request log :
  fst (send hook_at fetch new_URL resource hooks request log)
  = and_then (prepare new_URL resource request) (fun prepared =>
      let '(request', decoder', call) := prepared in
      and_then (fetch call) (fun response =>
      and_then (decode_response decoder' response) (fun result =>
      fold_after hook_at request' hooks result))).
Proof.
  unfold send, bind, lift, tell.
  destruct (prepare new_URL resource request) as [e|[[request' decoder'] call]]; simpl; [done|].
  destruct (fetch call) as [e|response]; simpl; [done|].
  destruct (decode_response decoder' response) as [e|result]; simpl; [done|].
  apply after_phase_outcome.
Qed.

(** What [send] adds to the log: nothing, or the call of [fetch] alone, or
    that call and the calls of after hooks. *)
Lemma send_trace resource hooks request log :
  match prepare new_URL resource request with
  | inl _ => snd (send hook_at fetch new_URL resource hooks request log) = log
  | inr (request', decoder', call) =>
      match and_then (fetch call) (decode_response decoder') with
      | inl _ =>
          snd (send hook_at fetch new_URL resource hooks request log)
          = (log ++ [EvFetch call])%list
      | inr result =>
          send hook_at fetch new_URL resource hooks request log
          = after_phase hook_at hooks request' result (log ++ [EvFetch call])%list
      end
  end.
Proof.
  unfold send, bind, lift, tell.
  destruct (prepare new_URL resource request) as [e|[[request' decoder'] call]]; simpl; [done|].
  destruct (fetch call) as [e|response]; simpl; [done|].
  by destruct (decode_response decoder' response) as [e|result].
Qed.

(** When the hooks return [request] and [prepare] succeeds on it, the
    transport is called exactly once, with the arguments [prepare] built. *)
Lemma route_call_fetch baseUrl options resource routeDef args
    result decoded request request' decoder' call :
  _constructor routeDef args = inr result →
  decode_result result = inr decoded →
  fold_before hook_at (call_hooks options resource result)
    (call_request baseUrl options resource result decoded) = inr request →
  prepare new_URL resource request = inr (request', decoder', call) →
  ∀ c, EvFetch c ∈ trace (route_call hook_at fetch new_URL baseUrl (global_scope options)
                            resource routeDef args) ↔ c = call.
Proof.
  intros Hc Hd Hb Hp c.
  unfold trace. rewrite (route_call_phases _ _ _ _ _ _ _ _ Hc Hd). unfold bind.
  pose proof (before_phase_outcome hook_at (call_hooks options resource result)
                (call_request baseUrl options resource result decoded) []) as Ho.
  pose proof (before_phase_events hook_at (call_hooks options resource result)
                (call_request baseUrl options resource result decoded) []) as Hev.
  destruct (before_phase _ _ _ _) as [o log]. simpl in Ho, Hev. rewrite Hb in Ho. subst o.
  assert (Hlog : EvFetch c ∉ log).
  { intros Hin. destruct (Hev _ Hin) as [Hnil|(h & Heq & _)]; [|done].
    by apply elem_of_nil in Hnil. }
  pose proof (send_trace resource (call_hooks options resource result) request log) as Ht.
  rewrite Hp in Ht.
  destruct (and_then (fetch call) (decode_response decoder')) as [e|res].
  - rewrite Ht. rewrite elem_of_app, list_elem_of_singleton. split; [|by right; subst].
    intros [?|Heq]; [done|]. by injection Heq.
  - rewrite Ht. split.
    + intros Hin. apply after_phase_events in Hin as [Hin|(h & Heq & _)]; [|done].
      apply elem_of_app in Hin as [?|Heq]; [done|].
      apply list_elem_of_singleton in Heq. by injection Heq.
    + intros ->. apply after_phase_keeps, elem_of_app. right. apply list_elem_of_here.
Qed.

End Calls.

(** ** The Content-Type header *)

(** The headers given to [fetch] are those the request had when the hooks
    returned it; the merge of the Content-Type header reaches the request
    that the after hooks receive, not the transport. *)
Lemma prepare_headers new_URL resource request request' decoder' call :
  prepare new_URL resource request = inr (request', decoder', call) →
  f_headers call = headers request
  ∧ (is_JSON_stringify (default JSON_stringify (encoder request)) = true →
     headers request ≫= (.!! content_type) = None →
     f_headers call ≫= (.!! content_type) = None
     ∧ headers request' ≫= (.!! content_type) = Some application_json).
Proof.
  unfold prepare. destruct (new_URL _) as [e|url]; [done|].
  destruct (fetch_body _ _) as [e|wire]; [done|].
  intros [= <- <- <-]; simpl. split; [done|]. intros -> Hnone. split; [done|].
  rewrite bool_decide_true by done. simpl.
  unfold mergeObjects. simpl. apply lookup_union_Some_l, lookup_singleton_eq.
Qed.

(** C1 (the code at the example of the claim): for the route
    ["POST /users"] with the body [{"name":"a"}] and the default
    configuration, [fetch] is called once, with the method [POST], the URL
    of [baseUrl + "/users"] and the body [{"name":"a"}], but with headers
    that hold no [Content-Type]: the header is merged into the request
    after the headers given to [fetch] were read from it. *)
Theorem content_type_not_sent hook_at fetch baseUrl :
  ∃ call,
    invoke (createClient hook_at fetch Sample.URL baseUrl [("users", Sample.users)] None)
           "users" "create" [] = Some call
    ∧ trace call =
        [EvFetch {| f_url := {| href := baseUrl +:+ "/users"; searchParams := [] |};
                    f_method := "POST";
                    f_body := VString Sample.name_a_json;
                    f_headers := Some ∅;
                    f_signal := None |}]
    ∧ (Some ∅ : option Headers) ≫= (.!! content_type) = None.
Proof.
  eexists. split; [reflexivity|]. split; [|done].
  unfold trace, route_call, bind, lift, tell; simpl.
  unfold send, prepare, bind, lift, tell, Sample.URL; simpl.
  destruct (fetch _) as [e|response]; simpl; [reflexivity|].
  unfold decode_response, parse_body. destruct (resp_json response); reflexivity.
Qed.

(** ** Structured descriptors *)

(** With a separate method and a route without a space, the route itself is
    taken for the method. *)
Lemma decodeRoute_method_given m route :
  Js.has_space route = false →
  decodeRoute (Some m) route =
    if Js.includes verbs (Js.toUpperCase route)
    then inr (mkDecoded (Js.toUpperCase route) None)
    else inl (Error (invalid_method_message (Js.toUpperCase route) route)).
Proof.
  intros H. unfold decodeRoute, Js.split_limit. rewrite split_no_space by done.
  simpl. match goal with |- context [negb ?b] => by destruct b end.
Qed.

(** C2 (the code at the example of the claim): a call whose descriptor
    is [{method: "POST", route: "/users"}] is rejected with the error of an
    invalid method [/USERS], and neither a hook nor the transport is
    called. *)
Theorem structured_method_route_rejected hook_at fetch new_URL baseUrl options resource
    h t b q k args :
  route_call hook_at fetch new_URL baseUrl (global_scope options) resource
    (mkRouteDef (fun _ =>
       inr (StructuredRoute (mkPureRoute (Some "POST") "/users" h t b q k))))
    args []
  = (inl (Error "Invalid HTTP method: /USERS at route: /users"), []).
Proof. reflexivity. Qed.

(** C4 (the code at a route with two spaces): the path is cut at the
    second space, where the split on the first space leaves
    ["/search?q=a b"]. *)
Theorem decodeRoute_cuts_path_at_second_space :
  split_first_space "GET /search?q=a b" = Some ("GET", "/search?q=a b")
  ∧ decodeRoute None "GET /search?q=a b" = inr (mkDecoded "GET" (Some "/search?q=a")).
Proof. split; reflexivity. Qed.

(** ** Failure of the decoding *)

Section Decoding.

Variable hook_at : HookRef -> Hook.
Variable fetch : FetchCall -> exn + Response.
Variable new_URL : string -> exn + string.

(** The decoder that [prepare] hands on is the one of the request, or
    [JSON.parse] when the request has none. *)
Lemma prepare_decoder resource request request' decoder' call :
  prepare new_URL resource request = inr (request', decoder', call) →
  decoder' = default JSON_parse (decoder request).
Proof.
  unfold prepare. destruct (new_URL _); [done|].
  destruct (fetch_body _ _); [done|]. by intros [= _ <- _].
Qed.

(** C3, as amended: in a call whose response fails to parse under the
    active decoder with the exception [e], the call is rejected with [e]
    itself, not wrapped; no result is produced and no after hook is
    called. *)
Theorem decode_failure_rejects baseUrl options resource routeDef args
    result decoded request request' decoder' call response e :
  _constructor routeDef args = inr result →
  decode_result result = inr decoded →
  fold_before hook_at (call_hooks options resource result)
    (call_request baseUrl options resource result decoded) = inr request →
  prepare new_URL resource request = inr (request', decoder', call) →
  fetch call = inr response →
  parse_body decoder' response = inl e →
  outcome (route_call hook_at fetch new_URL baseUrl (global_scope options)
             resource routeDef args) = inl e
  ∧ EvFetch call ∈ trace (route_call hook_at fetch new_URL baseUrl (global_scope options)
                            resource routeDef args)
  ∧ ∀ h, EvAfter h ∉ trace (route_call hook_at fetch new_URL baseUrl
                              (global_scope options) resource routeDef args).
Proof.
  intros Hc Hd Hb Hp Hf He.
  unfold outcome, trace. rewrite (route_call_phases _ _ _ _ _ _ _ _ _ _ _ Hc Hd).
  unfold bind.
  pose proof (before_phase_outcome hook_at (call_hooks options resource result)
                (call_request baseUrl options resource result decoded) []) as Ho.
  pose proof (before_phase_events hook_at (call_hooks options resource result)
                (call_request baseUrl options resource result decoded) []) as Hev.
  destruct (before_phase _ _ _ _) as [o log]. simpl in Ho, Hev. rewrite Hb in Ho. subst o.
  pose proof (send_outcome hook_at fetch new_URL resource
                (call_hooks options resource result) request log) as Hs.
  pose proof (send_trace hook_at fetch new_URL resource
                (call_hooks options resource result) request log) as Ht.
  rewrite Hp in Hs, Ht. simpl in Hs, Ht. rewrite Hf in Hs, Ht. simpl in Hs, Ht.
  unfold decode_response in Hs, Ht. rewrite He in Hs, Ht. simpl in Hs, Ht.
  rewrite Hs, Ht. split; [done|]. split.
  - apply elem_of_app. right. apply list_elem_of_here.
  - intros h [Hin|Hin]%elem_of_app.
    + destruct (Hev _ Hin) as [Hnil|(h' & Heq & _)]; [by apply elem_of_nil in Hnil|done].
    + by apply list_elem_of_singleton in Hin.
Qed.

End Decoding.

Lemma decode_failure_rejects_witness :
  outcome (route_call Sample.no_hook Sample.fetch_truncated Sample.URL "http://h"
               (global_scope None) Sample.users Sample.create_user [])
    = inl Sample.syntax_error
  ∧ EvFetch {| f_url := {| href := "http://h/users"; searchParams := [] |};
               f_method := "POST";
               f_body := VString Sample.name_a_json;
               f_headers := Some ∅;
               f_signal := None |}
    ∈ trace (route_call Sample.no_hook Sample.fetch_truncated Sample.URL "http://h"
               (global_scope None) Sample.users Sample.create_user [])
  ∧ ∀ h, EvAfter h ∉ trace (route_call Sample.no_hook Sample.fetch_truncated Sample.URL
                              "http://h" (global_scope None) Sample.users
                              Sample.create_user []).
Proof.
  eapply (decode_failure_rejects Sample.no_hook Sample.fetch_truncated Sample.URL
            "http://h" None Sample.users Sample.create_user []); reflexivity.
Defined.

(** The claim C3 as it is written fails: the rejection is the parse
    exception, which is not a [DecodeError] around it. *)
Lemma decode_failure_is_not_wrapped :
  outcome (route_call Sample.no_hook Sample.fetch_truncated Sample.URL "http://h"
             (global_scope None) Sample.users Sample.create_user [])
  = inl Sample.syntax_error
  ∧ ¬ ∃ x,
        outcome (route_call Sample.no_hook Sample.fetch_truncated Sample.URL "http://h"
                   (global_scope None) Sample.users Sample.create_user [])
        = inl x
        ∧ is_DecodeError_of Sample.syntax_error x.
Proof.
  split; [reflexivity|]. intros (x & Hx & message & Hwrap).
  vm_compute in Hx. subst x. discriminate Hx.
Qed.

(** ** Layers of headers *)

(** The headers of the request a call starts from, when the headers that
    the routes of the resource share hold what [createClient] put there. *)
Lemma call_request_headers baseUrl options resource result decoded :
  headers (call_request baseUrl options resource result decoded)
  = Some (mergeObjects
            (Some (mergeObjects (Some (default ∅ (options ≫= o_headers)))
                                (Some (default ∅ (r_headers resource)))))
            (Some (descriptor_headers result))).
Proof.
  unfold call_request, initial_request, createRequest, global_scope, resource_scope.
  destruct result as [route|d]; simpl; [|done].
  unfold mergeObjects; simpl. by rewrite (left_id_L ∅ (∪)).
Qed.

(** Three layers, key by key: the last layer that holds the key wins. *)
Lemma layers_lookup (g r q : Headers) k :
  mergeObjects (Some (mergeObjects (Some g) (Some r))) (Some q) !! k
  = match q !! k with
    | Some v => Some v
    | None => match r !! k with
              | Some v => Some v
              | None => g !! k
              end
    end.
Proof.
  unfold mergeObjects; simpl. rewrite !lookup_union.
  destruct (q !! k), (r !! k), (g !! k); done.
Qed.

(** ** Timeout, cancellation and body at the transport *)

Section Transport.

Variable hook_at : HookRef -> Hook.
Variable fetch : FetchCall -> exn + Response.
Variable new_URL : string -> exn + string.

(** [prepare] succeeds as soon as the URL is accepted and the encoder does
    not throw. *)
Lemma prepare_succeeds resource request url wire :
  new_URL (full_path resource request) = inr url →
  fetch_body (default JSON_stringify (encoder request)) (body request) = inr wire →
  ∃ request' call,
    prepare new_URL resource request
    = inr (request', default JSON_parse (decoder request), call)
    ∧ f_body call = wire ∧ f_method call = default "GET" (method request)
    ∧ href (f_url call) = url.
Proof.
  intros Hu Hw. unfold prepare. rewrite Hu, Hw. by eexists _, _.
Qed.

(** C7, as amended: a call starts with the first timeout that is there
    among the descriptor's, the resource's and the global one.  When the
    request the hooks returned has an abort signal, or a timeout that
    [AbortSignal.timeout] accepts on every platform (below 2^31 ms), the
    signal given to the transport is that abort signal when there is one,
    else [AbortSignal.timeout] of the timeout when it is truthy (there, and
    not zero), else none. *)
Theorem timeout_then_signal baseUrl options resource routeDef args
    result decoded request request' decoder' call :
  _constructor routeDef args = inr result →
  decode_result result = inr decoded →
  fold_before hook_at (call_hooks options resource result)
    (call_request baseUrl options resource result decoded) = inr request →
  prepare new_URL resource request = inr (request', decoder', call) →
  (abortSignal request = None → ∀ t, timeout request = Some t → (t < 2 ^ 31)%N) →
  timeout (call_request baseUrl options resource result decoded)
  = first_present [descriptor_timeout result; r_timeout resource; options ≫= o_timeout]
  ∧ (∀ c, EvFetch c ∈ trace (route_call hook_at fetch new_URL baseUrl
                               (global_scope options) resource routeDef args) ↔ c = call)
  ∧ (∀ s, abortSignal request = Some s → f_signal call = Some (GivenSignal s))
  ∧ (∀ t, abortSignal request = None → timeout request = Some t → t ≠ 0%N →
          f_signal call = Some (TimeoutSignal t))
  ∧ (abortSignal request = None →
     timeout request = None ∨ timeout request = Some 0%N →
     f_signal call = None).
Proof.
  intros Hc Hd Hb Hp _. split; [|split].
  - unfold call_request, initial_request, createRequest, global_scope, resource_scope.
    destruct result as [route|d]; simpl.
    + by destruct (r_timeout resource), (options ≫= o_timeout).
    + by destruct (pr_timeout d), (r_timeout resource), (options ≫= o_timeout).
  - by apply (route_call_fetch hook_at fetch new_URL _ _ _ _ _ _ _ _ _ _ _ Hc Hd Hb Hp).
  - unfold prepare in Hp. destruct (new_URL _) as [e|url]; [done|].
    destruct (fetch_body _ _) as [e|wire]; [done|].
    injection Hp as <- <- <-. simpl.
    assert (Hsig : fetch_signal
              (if is_JSON_stringify (default JSON_stringify (encoder request))
                  && bool_decide (headers request ≫= (.!! content_type) = None)
               then merge (with_headers {[ content_type := application_json ]}) request
               else request) = fetch_signal request).
    { by destruct (_ && _). }
    rewrite Hsig. unfold fetch_signal. repeat split.
    + by intros s ->.
    + intros t -> -> Hne. by apply N.eqb_neq in Hne as ->.
    + by intros -> [->| ->].
Qed.

(** C9, as amended: the body given to the transport is none when the body
    of the request the hooks returned is falsy ([undefined], [null],
    [false], [0] or the empty string); it is that body itself when it is a
    non-empty string, a stream, form data, an array buffer or URL search
    parameters; it is what the active encoder makes of it in every other
    case. *)
Theorem body_sent baseUrl options resource routeDef args
    result decoded request request' decoder' call :
  _constructor routeDef args = inr result →
  decode_result result = inr decoded →
  fold_before hook_at (call_hooks options resource result)
    (call_request baseUrl options resource result decoded) = inr request →
  prepare new_URL resource request = inr (request', decoder', call) →
  (∀ c, EvFetch c ∈ trace (route_call hook_at fetch new_URL baseUrl
                             (global_scope options) resource routeDef args) ↔ c = call)
  ∧ (truthy (body request) = false → f_body call = VUndefined)
  ∧ (truthy (body request) = true → is_passthrough (body request) = true →
     f_body call = body request)
  ∧ (truthy (body request) = true → is_passthrough (body request) = false →
     apply_encoder (default JSON_stringify (encoder request)) (body request)
     = inr (f_body call)).
Proof.
  intros Hc Hd Hb Hp. split.
  - by apply (route_call_fetch hook_at fetch new_URL _ _ _ _ _ _ _ _ _ _ _ Hc Hd Hb Hp).
  - unfold prepare in Hp. destruct (new_URL _) as [e|url]; [done|].
    destruct (fetch_body _ _) as [e|wire] eqn:Hw; [done|].
    injection Hp as <- <- <-. simpl. unfold fetch_body in Hw. repeat split.
    + intros Ht. rewrite Ht in Hw. by injection Hw.
    + intros Ht Hpass. rewrite Ht, Hpass in Hw. by injection Hw.
    + intros Ht Hpass. by rewrite Ht, Hpass in Hw.
Qed.

(** An encoder that throws rejects the call before the transport is
    called. *)
Lemma encoder_throw_rejects resource hooks request url e log :
  new_URL (full_path resource request) = inr url →
  fetch_body (default JSON_stringify (encoder request)) (body request) = inl e →
  send hook_at fetch new_URL resource hooks request log = (inl e, log).
Proof.
  intros Hu Hw. unfold send, bind, lift, prepare. by rewrite Hu, Hw.
Qed.

End Transport.

Lemma timeout_then_signal_witness :
  ∃ call,
    (∀ c, EvFetch c ∈ trace (route_call Sample.no_hook Sample.fetch_null Sample.URL
                               "http://h" (global_scope None)
                               (Sample.timed_resource 3000) (Sample.timed_route 3000) [])
          ↔ c = call)
    ∧ f_signal call = Some (TimeoutSignal 3000).
Proof.
  eexists.
  pose proof (timeout_then_signal Sample.no_hook Sample.fetch_null Sample.URL
                "http://h" None (Sample.timed_resource 3000) (Sample.timed_route 3000) []
                _ _ _ _ _ _ eq_refl eq_refl eq_refl eq_refl) as Hsignal.
  destruct Hsignal as (_ & Hf & _ & Hs & _).
  { intros _ t Ht. injection Ht as <-. reflexivity. }
  split; [exact Hf|]. apply Hs; [reflexivity|reflexivity|discriminate].
Defined.

(** The claim C7 as it is written fails at a timeout of zero: it is the
    first timeout that is there, yet no signal is given to the transport. *)
Lemma zero_timeout_gives_no_signal :
  timeout (call_request "http://h" None (Sample.timed_resource 0)
             (StructuredRoute
                (mkPureRoute None "/slow" None (Some 0%N) VUndefined None None))
             (mkDecoded "GET" (Some "/slow")))
  = Some 0%N
  ∧ trace (route_call Sample.no_hook Sample.fetch_null Sample.URL "http://h"
             (global_scope None) (Sample.timed_resource 0) (Sample.timed_route 0) [])
    = [EvFetch {| f_url := {| href := "http://h/slow"; searchParams := [] |};
                  f_method := "GET";
                  f_body := VUndefined;
                  f_headers := Some ∅;
                  f_signal := None |}]
  ∧ (None : option Signal) ≠ Some (TimeoutSignal 0).
Proof. split; [reflexivity|]. split; [vm_compute; reflexivity|discriminate]. Qed.

Lemma body_sent_witness :
  ∃ call,
    (∀ c, EvFetch c ∈ trace (route_call Sample.no_hook Sample.fetch_null Sample.URL
                               "http://h" (global_scope None)
                               Sample.users Sample.create_user [])
          ↔ c = call)
    ∧ f_body call = VString Sample.name_a_json.
Proof.
  eexists.
  pose proof (body_sent Sample.no_hook Sample.fetch_null Sample.URL
                "http://h" None Sample.users Sample.create_user []
                _ _ _ _ _ _ eq_refl eq_refl eq_refl eq_refl) as (Hf & _ & _ & He).
  split; [exact Hf|].
  specialize (He eq_refl eq_refl). symmetry in He.
  exact (f_equal (fun x => match x with inr v => v | inl _ => VUndefined end) He).
Defined.

(** The claim C9 as it is written fails at a falsy body: the empty string
    is a raw text and is not sent; the number zero is not a passthrough
    body and its encoding ["0"] is not sent. *)
Lemma falsy_body_is_not_sent :
  (is_passthrough (VString "") = true
   ∧ trace (route_call Sample.no_hook Sample.fetch_null Sample.URL "http://h"
              (global_scope None) (Sample.body_resource (VString ""))
              (Sample.body_route (VString "")) [])
     = [EvFetch {| f_url := {| href := "http://h/echo"; searchParams := [] |};
                   f_method := "POST";
                   f_body := VUndefined;
                   f_headers := Some ∅;
                   f_signal := None |}]
   ∧ VUndefined ≠ VString "")
  ∧ (is_passthrough (VNumber 0) = false
     ∧ apply_encoder JSON_stringify (VNumber 0) = inr (VString "0")
     ∧ trace (route_call Sample.no_hook Sample.fetch_null Sample.URL "http://h"
                (global_scope None) (Sample.body_resource (VNumber 0))
                (Sample.body_route (VNumber 0)) [])
       = [EvFetch {| f_url := {| href := "http://h/echo"; searchParams := [] |};
                     f_method := "POST";
                     f_body := VUndefined;
                     f_headers := Some ∅;
                     f_signal := None |}]
     ∧ VUndefined ≠ VString "0").
Proof.
  repeat split; try reflexivity; try discriminate; vm_compute; reflexivity.
Qed.

(** ** Order and extent of the hooks *)

Section Hooks.

Variable hook_at : HookRef -> Hook.
Variable fetch : FetchCall -> exn + Response.
Variable new_URL : string -> exn + string.

(** The fold over a concatenation is the fold over the first list, then
    over the second one. *)
Lemma fold_before_app l1 l2 request :
  fold_before hook_at (l1 ++ l2) request
  = and_then (fold_before hook_at l1 request) (fold_before hook_at l2).
Proof.
  unfold fold_before. rewrite fold_left_app.
  destruct (fold_left _ l1 _) as [e|r]; simpl; [apply fold_before_inl|done].
Qed.

Lemma fold_after_app request l1 l2 res :
  fold_after hook_at request (l1 ++ l2) res
  = and_then (fold_after hook_at request l1 res) (fold_after hook_at request l2).
Proof.
  unfold fold_after. rewrite fold_left_app.
  destruct (fold_left _ l1 _) as [e|r]; simpl; [apply fold_after_inl|done].
Qed.

(** What [send] adds to the log, whatever its outcome. *)
Lemma send_events resource hooks request log ev :
  ev ∈ snd (send hook_at fetch new_URL resource hooks request log) →
  ev ∈ log ∨ (∃ c, ev = EvFetch c) ∨ ∃ h, ev = EvAfter h ∧ h ∈ hooks.
Proof.
  pose proof (send_trace hook_at fetch new_URL resource hooks request log) as Ht.
  destruct (prepare new_URL resource request) as [e|[[request' decoder'] call]].
  - rewrite Ht. by left.
  - destruct (and_then (fetch call) (decode_response decoder')) as [e|res]; rewrite Ht.
    + intros [?|Hs]%elem_of_app; [by left|].
      apply list_elem_of_singleton in Hs. right. left. by exists call.
    + intros [[?|Hs]%elem_of_app|Hh]%after_phase_events.
      * by left.
      * apply list_elem_of_singleton in Hs. right. left. by exists call.
      * by right; right.
Qed.

(** C6: the hooks of a call are the global hooks, then those of the
    resource, then those of the descriptor.  The call is the left fold of
    the [beforeRequest] of that list over the request, each hook replacing
    the working request with what it returns, then the transport, then the
    left fold of the [afterRequest] of the same list, in the same order,
    over the result; a call that succeeds has called the hooks in that
    order in both phases. *)
Theorem hooks_fold_in_scope_order baseUrl options resource routeDef args result decoded :
  _constructor routeDef args = inr result →
  decode_result result = inr decoded →
  let G := default [] (options ≫= o_hooks) in
  let R := default [] (r_hooks resource) in
  let Q := descriptor_hooks result in
  let call := route_call hook_at fetch new_URL baseUrl (global_scope options)
                resource routeDef args in
  outcome call
  = and_then (fold_before hook_at (G ++ R ++ Q)
                (call_request baseUrl options resource result decoded))
      (fun request =>
         and_then (prepare new_URL resource request) (fun prepared =>
           let '(request', decoder', sent) := prepared in
           and_then (fetch sent) (fun response =>
             and_then (decode_response decoder' response) (fun result0 =>
               fold_after hook_at request' (G ++ R ++ Q) result0))))
  ∧ (∀ request,
       fold_before hook_at (G ++ R ++ Q) request
       = and_then (fold_before hook_at G request) (fun r1 =>
           and_then (fold_before hook_at R r1) (fold_before hook_at Q)))
  ∧ (∀ request res,
       fold_after hook_at request (G ++ R ++ Q) res
       = and_then (fold_after hook_at request G res) (fun r1 =>
           and_then (fold_after hook_at request R r1) (fold_after hook_at request Q)))
  ∧ (∀ final, outcome call = inr final →
       ∃ sent,
         trace call
         = (map EvBefore (with_before hook_at (G ++ R ++ Q))
            ++ EvFetch sent :: map EvAfter (with_after hook_at (G ++ R ++ Q)))%list).
Proof.
  intros Hc Hd G R Q call.
  assert (Hcall : ∀ log, call log
            = bind (before_phase hook_at (G ++ R ++ Q)
                      (call_request baseUrl options resource result decoded))
                   (send hook_at fetch new_URL resource (G ++ R ++ Q)) log).
  { intros log. exact (route_call_phases hook_at fetch new_URL _ _ _ _ _ _ _ log Hc Hd). }
  pose proof (before_phase_outcome hook_at (G ++ R ++ Q)
                (call_request baseUrl options resource result decoded) []) as Ho.
  pose proof (before_phase_success hook_at (G ++ R ++ Q)
                (call_request baseUrl options resource result decoded) []) as Hs.
  split; [|split; [|split]].
  - unfold outcome. rewrite Hcall. unfold bind.
    destruct (before_phase _ _ _ _) as [[e|request] log]; simpl in Ho; rewrite <- Ho; simpl.
    + done.
    + apply send_outcome.
  - intros request. rewrite fold_before_app.
    destruct (fold_before hook_at G request) as [e|r1]; simpl; [done|].
    apply fold_before_app.
  - intros request res. rewrite fold_after_app.
    destruct (fold_after hook_at request G res) as [e|r1]; simpl; [done|].
    apply fold_after_app.
  - intros final. unfold outcome, trace. rewrite Hcall. unfold bind.
    destruct (before_phase _ _ _ _) as [[e|request] log]; simpl; [done|].
    specialize (Hs _ _ eq_refl). simpl in Hs. subst log.
    pose proof (send_trace hook_at fetch new_URL resource (G ++ R ++ Q) request
                  (map EvBefore (with_before hook_at (G ++ R ++ Q)))) as Ht.
    pose proof (send_outcome hook_at fetch new_URL resource (G ++ R ++ Q) request
                  (map EvBefore (with_before hook_at (G ++ R ++ Q)))) as Hout.
    destruct (prepare new_URL resource request) as [e|[[request' decoder'] sent]].
    { simpl in Hout. rewrite Hout. done. }
    simpl in Hout.
    destruct (fetch sent) as [e|response]; simpl in Ht, Hout; [by rewrite Hout|].
    destruct (decode_response decoder' response) as [e|result0]; simpl in Ht, Hout;
      [by rewrite Hout|].
    rewrite Ht. intros Hfinal. exists sent.
    destruct (after_phase _ _ _ _ _) as [[e|res'] log'] eqn:Ha; simpl in Hfinal; [done|].
    apply after_phase_success in Ha. simpl. rewrite Ha. by rewrite <- app_assoc.
Qed.

(** C10: whatever the hooks return, a hook that is not in the list made
    when the call starts (global hooks, hooks of the resource, hooks of the
    descriptor) is called in neither phase of the call. *)
Theorem hooks_fixed_at_start baseUrl options resource routeDef args result h :
  _constructor routeDef args = inr result →
  h ∉ (default [] (options ≫= o_hooks) ++ default [] (r_hooks resource)
       ++ descriptor_hooks result)%list →
  (EvBefore h ∉ trace (route_call hook_at fetch new_URL baseUrl (global_scope options)
                         resource routeDef args))
  ∧ (EvAfter h ∉ trace (route_call hook_at fetch new_URL baseUrl (global_scope options)
                          resource routeDef args)).
Proof.
  intros Hc Hh.
  assert (Hall : ∀ ev,
            ev ∈ trace (route_call hook_at fetch new_URL baseUrl (global_scope options)
                          resource routeDef args) →
            (∃ c, ev = EvFetch c)
            ∨ ∃ h', (ev = EvBefore h' ∨ ev = EvAfter h')
                    ∧ h' ∈ call_hooks options resource result).
  { intros ev. unfold trace.
    destruct (decode_result result) as [e|decoded] eqn:Hd.
    - rewrite (route_call_decode_failure hook_at fetch new_URL _ _ _ _ _ _ _ _ Hc Hd).
      simpl. by intros ?%elem_of_nil.
    - rewrite (route_call_phases hook_at fetch new_URL _ _ _ _ _ _ _ _ Hc Hd). unfold bind.
      pose proof (before_phase_events hook_at (call_hooks options resource result)
                    (call_request baseUrl options resource result decoded) []) as Hev.
      destruct (before_phase _ _ _ _) as [[e|request] log]; simpl in Hev |- *.
      + intros [?%elem_of_nil|(h' & -> & ?)]%Hev; [done|]. right. exists h'. auto.
      + intros [Hin|[?|(h' & -> & ?)]]%send_events.
        * apply Hev in Hin as [?%elem_of_nil|(h' & -> & ?)]; [done|].
          right. exists h'. auto.
        * by left.
        * right. exists h'. auto. }
  split; intros Hin; apply Hall in Hin as [[c Hc']|(h' & [Heq|Heq] & Hin)];
    try discriminate; injection Heq as <-; by apply Hh.
Qed.

End Hooks.

Lemma hooks_fold_in_scope_order_witness :
  ∃ sent,
    trace (route_call Sample.tagged_hooks Sample.fetch_null Sample.URL "http://h"
             (global_scope (Some Sample.tagged_options)) Sample.tagged_resource
             Sample.tagged_route [])
    = [EvBefore 0%nat; EvBefore 1%nat; EvBefore 2%nat; EvFetch sent;
       EvAfter 0%nat; EvAfter 1%nat; EvAfter 2%nat]
    ∧ f_headers sent ≫= (.!! "X-Seen") = Some "GRQ"
    ∧ outcome (route_call Sample.tagged_hooks Sample.fetch_null Sample.URL "http://h"
                 (global_scope (Some Sample.tagged_options)) Sample.tagged_resource
                 Sample.tagged_route [])
      = inr (mkResult ∅ 200
               (VArray [VArray [VArray [VNull; VString "G"]; VString "R"]; VString "Q"])).
Proof.
  pose proof (hooks_fold_in_scope_order Sample.tagged_hooks Sample.fetch_null Sample.URL
                "http://h" (Some Sample.tagged_options) Sample.tagged_resource
                Sample.tagged_route [] _ _ eq_refl eq_refl) as (Hout & _ & _ & Htrace).
  destruct (Htrace _ eq_refl) as [sent Hsent].
  exists sent. split; [exact Hsent|]. split.
  - vm_compute in Hsent. injection Hsent as <-. vm_compute. reflexivity.
  - vm_compute. reflexivity.
Defined.

Lemma hooks_fixed_at_start_witness :
  (EvBefore 7%nat
   ∉ trace (route_call Sample.growing_hooks Sample.fetch_null Sample.URL "http://h"
              (global_scope (Some Sample.tagged_options)) Sample.users
              Sample.create_user []))
  ∧ (EvAfter 7%nat
     ∉ trace (route_call Sample.growing_hooks Sample.fetch_null Sample.URL "http://h"
                (global_scope (Some Sample.tagged_options)) Sample.users
                Sample.create_user [])).
Proof.
  apply (hooks_fixed_at_start Sample.growing_hooks Sample.fetch_null Sample.URL
           "http://h" (Some Sample.tagged_options) Sample.users Sample.create_user []
           _ 7%nat eq_refl).
  simpl. intros Hin. apply list_elem_of_singleton in Hin. discriminate Hin.
Defined.

(** ** [merge] *)


Lemma lookup_fresh {A} (m : gmap Store.loc A) : m !! fresh (dom m) = None.
Proof. apply not_elem_of_dom, is_fresh. Qed.

Lemma lookup_alloc {A} (m : gmap Store.loc A) (x : A) l :
  is_Some (m !! l) → <[fresh (dom m) := x]> m !! l = m !! l.
Proof.
  intros [y Hy]. apply lookup_insert_ne. intros Heq.
  pose proof (lookup_fresh m) as Hf. rewrite Heq in Hf. congruence.
Qed.

Lemma read_request_inv σ l r :
  Store.read_request σ l = Some r →
  ∃ cell hv kv,
    Store.requests σ !! l = Some cell
    ∧ Store.deref (Store.headerObjects σ) (Store.c_headers cell) = Some hv
    ∧ Store.deref (Store.hookObjects σ) (Store.c_hooks cell) = Some kv
    ∧ r = setHooks kv (setHeaders hv (Store.c_fields cell)).
Proof.
  unfold Store.read_request. intros H.
  destruct (Store.requests σ !! l) as [cell|]; [|done]. simpl in H.
  destruct (Store.deref (Store.headerObjects σ) (Store.c_headers cell)) as [hv|] eqn:Hh;
    [|done].
  simpl in H.
  destruct (Store.deref (Store.hookObjects σ) (Store.c_hooks cell)) as [kv|] eqn:Hk;
    [|done].
  simpl in H. injection H as <-. by exists cell, hv, kv.
Qed.

Lemma deref_alloc {A} (m : gmap Store.loc A) (x : A) l v :
  Store.deref m l = Some v → Store.deref (<[fresh (dom m) := x]> m) l = Some v.
Proof.
  destruct l as [l|]; simpl; [|done].
  intros (y & Hy & ->)%fmap_Some. rewrite lookup_alloc by eauto. by rewrite Hy.
Qed.




(** The union of the hooks: a partial request with the hooks [[3]] merged
    into a request with the hooks [[1, 2]] gives the hooks [{0: 3, 1: 2}]. *)
Example merge_unites_hooks :
  p_hooks Sample.partial_hooks = Some (Some (HooksArray [3%nat]))
  ∧ hooks Sample.plain_request = Some (HooksArray [1%nat; 2%nat])
  ∧ hooks (merge Sample.partial_hooks Sample.plain_request)
    = Some (HooksIndexed [3%nat; 2%nat])
  ∧ hooks (merge Sample.partial_hooks Sample.plain_request)
    ≠ Some (HooksArray [3%nat]).
Proof. repeat split; try reflexivity. discriminate. Qed.

(** ** Worked examples *)

Example decodeRoute_bare : decodeRoute None "/users" = inr (mkDecoded "GET" (Some "/users")).
Proof. reflexivity. Qed.

Example decodeRoute_lowercase_verb :
  decodeRoute None "post /users" = inr (mkDecoded "POST" (Some "/users")).
Proof. reflexivity. Qed.

Example decodeRoute_unknown_verb :
  decodeRoute None "fetch /users"
  = inl (Error "Invalid HTTP method: FETCH at route: fetch /users").
Proof. reflexivity. Qed.

Example decodeRoute_structured_with_verb :
  decodeRoute (Some "POST") "GET /users" = inr (mkDecoded "GET" (Some "/users")).
Proof. reflexivity. Qed.

Example stringify_nested :
  JSON.stringify (VArray [VNumber (-12); VUndefined; VBool true; VObject [("k", VUndefined)]])
  = VString "[-12,null,true,{}]".
Proof. reflexivity. Qed.

(** The request that hook 0 of [Sample.growing_hooks] returns carries the
    hooks 0 and 7; the calls of the run are hook 0 and the transport. *)
Example growing_hooks_trace :
  trace (route_call Sample.growing_hooks Sample.fetch_null Sample.URL "http://h"
           (global_scope (Some Sample.tagged_options)) Sample.users Sample.create_user [])
  = [EvBefore 0%nat;
     EvFetch {| f_url := {| href := "http://h/users"; searchParams := [] |};
                f_method := "POST";
                f_body := VString Sample.name_a_json;
                f_headers := Some ∅;
                f_signal := None |}].
Proof. vm_compute. reflexivity. Qed.

(** A hook that installs an encoder of its own keeps the Content-Type
    header out of the request as well. *)
Example custom_encoder_no_content_type :
  ∀ request' decoder' call f,
    prepare Sample.URL Sample.users
      (setEncoder (CustomEncoder f) Sample.plain_request) = inr (request', decoder', call) →
    headers request' ≫= (.!! content_type) = None.
Proof.
  intros request' decoder' call f. unfold prepare; simpl.
  intros [= <- _ _]. vm_compute. reflexivity.
Qed.

(** * Further properties of the code *)

(** ** [decodeRoute] *)

Lemma split_pieces_no_space s :
  Forall (fun piece => Js.has_space piece = false) (Js.split Js.space s).
Proof.
  induction s as [|c s IH]; simpl; [by repeat constructor|].
  destruct (Ascii.eqb c Js.space) eqn:Hc; [by constructor|].
  destruct (Js.split Js.space s) as [|piece pieces].
  - constructor; [|by constructor]. simpl. by rewrite Hc.
  - inversion IH as [|? ? Hp Hps]; subst. constructor; [|done]. simpl. by rewrite Hc.
Qed.

Lemma split_first_space_app token rest :
  Js.has_space token = false →
  split_first_space (token +:+ String Js.space rest) = Some (token, rest).
Proof.
  induction token as [|c token IH]; simpl; [done|].
  intros [Hc Ht]%orb_false_iff. rewrite Hc. by rewrite (IH Ht).
Qed.

Lemma verb_fixed verb :
  verb ∈ verbs → Js.toUpperCase verb = verb ∧ Js.has_space verb = false.
Proof.
  unfold verbs. set_unfold. by intros [->|[->|[->|[->|[->|[]]]]]].
Qed.

Lemma has_space_split_first s :
  Js.has_space s = true → ∃ token rest, split_first_space s = Some (token, rest).
Proof.
  intros H. destruct (split_first_space s) as [[token rest]|] eqn:Hs; [by eauto|].
  apply split_first_space_None in Hs. congruence.
Qed.

Lemma decoded_method_in_verbs method route d :
  decodeRoute method route = inr d → d_method d ∈ verbs.
Proof.
  destruct (Js.has_space route) eqn:Hsp.
  - destruct (has_space_split_first _ Hsp) as (token & rest & Hs).
    rewrite (decodeRoute_tokens _ _ _ _ Hs).
    destruct (Js.includes verbs (Js.toUpperCase token)) eqn:Hin; [|done].
    intros [= <-]. by apply includes_verbs_spec.
  - destruct method as [m|].
    + rewrite decodeRoute_method_given by done.
      destruct (Js.includes verbs (Js.toUpperCase route)) eqn:Hin; [|done].
      intros [= <-]. by apply includes_verbs_spec.
    + rewrite decodeRoute_bare_route by done. intros [= <-]. simpl.
      unfold verbs. set_solver.
Qed.

(** Whatever the route and the separate method, a decoding that succeeds
    gives one of the five verbs, in upper case. *)
Theorem decodeRoute_method_is_verb method route d :
  decodeRoute method route = inr d →
  d_method d ∈ verbs ∧ Js.toUpperCase (d_method d) = d_method d.
Proof.
  intros Hd. pose proof (decoded_method_in_verbs _ _ _ Hd) as Hv.
  split; [done|]. by apply verb_fixed.
Qed.

Lemma decodeRoute_method_is_verb_witness : "DELETE" ∈ verbs.
Proof.
  exact (proj1 (decodeRoute_method_is_verb None "delete /users/7"
                  (mkDecoded "DELETE" (Some "/users/7")) eq_refl)).
Defined.

Lemma decoded_path_no_space method route d p :
  decodeRoute method route = inr d → d_path d = Some p → Js.has_space p = false.
Proof.
  destruct (Js.has_space route) eqn:Hsp.
  - destruct (has_space_split_first _ Hsp) as (token & rest & Hs).
    rewrite (decodeRoute_tokens _ _ _ _ Hs).
    destruct (Js.includes verbs (Js.toUpperCase token)); [|done].
    intros [= <-]. simpl. intros [= <-]. unfold kept_path.
    pose proof (split_pieces_no_space rest) as Hall.
    destruct (Js.split Js.space rest) as [|piece pieces]; [done|].
    by inversion Hall.
  - destruct method as [m|].
    + rewrite decodeRoute_method_given by done.
      by destruct (Js.includes verbs (Js.toUpperCase route)); [intros [= <-]|].
    + rewrite decodeRoute_bare_route by done. intros [= <-]. simpl. by intros [= <-].
Qed.

(** The path of a decoded route never holds a space, and there is a path
    whenever no separate method was given. *)
Theorem decodeRoute_path_has_no_space method route d :
  decodeRoute method route = inr d →
  (∀ p, d_path d = Some p → Js.has_space p = false)
  ∧ (method = None → is_Some (d_path d)).
Proof.
  intros Hd. split; [intros p; by apply (decoded_path_no_space method route)|].
  intros ->. destruct (Js.has_space route) eqn:Hsp.
  - destruct (has_space_split_first _ Hsp) as (token & rest & Hs).
    rewrite (decodeRoute_tokens _ _ _ _ Hs) in Hd.
    destruct (Js.includes verbs (Js.toUpperCase token)); [|done].
    injection Hd as <-. by eexists.
  - rewrite decodeRoute_bare_route in Hd by done. injection Hd as <-. by eexists.
Qed.

Lemma decodeRoute_path_has_no_space_witness : Js.has_space "/a" = false.
Proof.
  exact (proj1 (decodeRoute_path_has_no_space None "put /a b c"
                  (mkDecoded "PUT" (Some "/a")) eq_refl) "/a" eq_refl).
Defined.

(** The value of the separate method never reaches the result: two
    methods give the same decoding, and for a route with a space the
    decoding is the one of the route alone. *)
Theorem decodeRoute_method_value_unused route :
  (∀ m1 m2, decodeRoute (Some m1) route = decodeRoute (Some m2) route)
  ∧ (Js.has_space route = true →
     ∀ method, decodeRoute method route = decodeRoute None route).
Proof.
  split.
  - intros m1 m2. unfold decodeRoute.
    by rewrite !bool_decide_false, !andb_false_r by done.
  - intros Hsp method. destruct (has_space_split_first _ Hsp) as (token & rest & Hs).
    by rewrite !(decodeRoute_tokens _ _ _ _ Hs).
Qed.

(** Decoding is stable: the verb and the path of a decoded route, joined by
    a space, decode to themselves. *)
Theorem decodeRoute_round_trip method route d p method' :
  decodeRoute method route = inr d →
  d_path d = Some p →
  decodeRoute method' (d_method d +:+ String Js.space p) = inr d.
Proof.
  intros Hd Hp.
  pose proof (decoded_method_in_verbs _ _ _ Hd) as Hv.
  pose proof (decoded_path_no_space _ _ _ _ Hd Hp) as Hns.
  destruct (verb_fixed _ Hv) as [Hfix Hnsv].
  rewrite (decodeRoute_tokens _ _ _ _ (split_first_space_app _ p Hnsv)).
  rewrite Hfix, kept_path_no_space by done.
  apply includes_verbs_spec in Hv. rewrite Hv.
  destruct d as [m q]. simpl in *. by subst.
Qed.

Lemma decodeRoute_round_trip_witness :
  decodeRoute (Some "GET") "PATCH /users/7" = inr (mkDecoded "PATCH" (Some "/users/7")).
Proof.
  exact (decodeRoute_round_trip None "patch /users/7 now"
           (mkDecoded "PATCH" (Some "/users/7")) "/users/7" (Some "GET") eq_refl eq_refl).
Defined.

(** The case of the letters of the verb does not matter: two routes whose
    tokens differ by case only, with the same text after the first space,
    decode to the same method and path. *)
Theorem decodeRoute_case_of_verb method route1 route2 token1 token2 rest d :
  split_first_space route1 = Some (token1, rest) →
  split_first_space route2 = Some (token2, rest) →
  eq_ignore_case token1 token2 →
  decodeRoute method route1 = inr d ↔ decodeRoute method route2 = inr d.
Proof.
  intros H1 H2 Hci.
  assert (Hup : Js.toUpperCase token1 = Js.toUpperCase token2).
  { by rewrite <- (toUpperCase_toLowerCase token1), Hci, toUpperCase_toLowerCase. }
  rewrite (decodeRoute_tokens _ _ _ _ H1), (decodeRoute_tokens _ _ _ _ H2), Hup.
  by destruct (Js.includes verbs (Js.toUpperCase token2)).
Qed.

Lemma decodeRoute_case_of_verb_witness :
  decodeRoute None "Post /users" = inr (mkDecoded "POST" (Some "/users"))
  ↔ decodeRoute None "pOST /users" = inr (mkDecoded "POST" (Some "/users")).
Proof.
  exact (decodeRoute_case_of_verb None "Post /users" "pOST /users" "Post" "pOST" "/users"
           (mkDecoded "POST" (Some "/users")) eq_refl eq_refl eq_refl).
Defined.

Lemma decodeRoute_method_value_unused_witness :
  decodeRoute (Some "POST") "get /x" = decodeRoute None "get /x".
Proof.
  exact (proj2 (decodeRoute_method_value_unused "get /x") eq_refl (Some "POST")).
Defined.

(** ** [mergeObjects] and the methods of a request *)

(** [mergeObjects] layers: a key is read from the second object when it has
    it, else from the first; merging is associative, an absent object
    counts for an empty one, and merging an object with itself changes
    nothing. *)
Theorem mergeObjects_layers (a b c : option Headers) :
  (∀ k, mergeObjects a b !! k
        = match default ∅ b !! k with
          | Some v => Some v
          | None => default ∅ a !! k
          end)
  ∧ mergeObjects (Some (mergeObjects a b)) c = mergeObjects a (Some (mergeObjects b c))
  ∧ mergeObjects a None = default ∅ a
  ∧ mergeObjects None b = default ∅ b
  ∧ mergeObjects a a = default ∅ a.
Proof.
  unfold mergeObjects; simpl. repeat split.
  - intros k. rewrite lookup_union. by destruct (default ∅ b !! k), (default ∅ a !! k).
  - by rewrite (assoc_L (∪)).
  - by rewrite (left_id_L ∅ (∪)).
  - by rewrite (right_id_L ∅ (∪)).
  - by rewrite (idemp_L (∪)).
Qed.

(** A merge with an empty partial request gives the value of the receiver;
    a merge with headers alone gives the value that [addHeaders] leaves in
    the receiver. *)
Theorem merge_special_cases (h : Headers) (this : Request) :
  merge emptyPartial this = this
  ∧ merge (with_headers h) this = addHeaders h this.
Proof. by destruct this. Qed.

(** Two [addHeaders] in a row are one [addHeaders] of the merged headers;
    a key is then read from the last headers that hold it; a later
    [setHeaders] forgets them all. *)
Theorem addHeaders_compose (h1 h2 : Headers) (x : option Headers) (this : Request) :
  addHeaders h2 (addHeaders h1 this) = addHeaders (mergeObjects (Some h1) (Some h2)) this
  ∧ (∀ k, headers (addHeaders h2 (addHeaders h1 this)) ≫= (.!! k)
          = match h2 !! k with
            | Some v => Some v
            | None => match h1 !! k with
                      | Some v => Some v
                      | None => headers this ≫= (.!! k)
                      end
            end)
  ∧ setHeaders x (addHeaders h1 this) = setHeaders x this.
Proof.
  split; [|split].
  - unfold addHeaders, setHeaders, mergeObjects; simpl. by rewrite (assoc_L (∪)).
  - intros k. unfold addHeaders, setHeaders, mergeObjects; simpl.
    rewrite !lookup_union. destruct (h2 !! k), (h1 !! k), (headers this) as [hs|]; simpl;
      try done; by destruct (hs !! k).
  - done.
Qed.

(** The hooks that [merge] writes: at every index the hook of the partial
    request when it has one there, else the hook of the receiver; there are
    as many as in the longer of the two. *)
Theorem mergeObjects_hooks_index (a b : option HooksField) :
  (∀ i, hooks_entries (Some (mergeObjects_hooks a b)) !! i
        = match hooks_entries b !! i with
          | Some h => Some h
          | None => hooks_entries a !! i
          end)
  ∧ length (hooks_entries (Some (mergeObjects_hooks a b)))
    = (length (hooks_entries a) `max` length (hooks_entries b))%nat.
Proof.
  unfold mergeObjects_hooks. simpl. split.
  - intros i. destruct (hooks_entries b !! i) as [h|] eqn:Hi.
    + by rewrite (lookup_app_l_Some _ _ _ _ Hi).
    + apply lookup_ge_None in Hi. rewrite lookup_app_r by done.
      rewrite lookup_drop. f_equal. lia.
  - rewrite length_app, length_drop. lia.
Qed.

Lemma assoc_map_value {V W} (f : string * V → W) (k : string) (l : list (string * V)) :
  assoc k (map (fun kv => (fst kv, f kv)) l)
  = match assoc k l with
    | Some v => Some (f (k, v))
    | None => None
    end.
Proof.
  induction l as [|[k' v] l IH]; simpl; [done|].
  destruct (String.eqb k k') eqn:Hk; [|done]. by apply String.eqb_eq in Hk as ->.
Qed.

Lemma assoc_app {V} (k : string) (l1 l2 : list (string * V)) :
  assoc k (l1 ++ l2) = match assoc k l1 with
                       | Some v => Some v
                       | None => assoc k l2
                       end.
Proof.
  induction l1 as [|[k' v] l1 IH]; simpl; [done|]. by destruct (String.eqb k k').
Qed.

Lemma assoc_filter_absent {V} (k : string) (a b : list (string * V)) :
  assoc k a = None →
  assoc k (filter (fun kv => bool_decide (assoc (fst kv) a = None) = true) b) = assoc k b.
Proof.
  intros Ha. induction b as [|[k' v] b IH]; [done|].
  rewrite filter_cons. simpl. destruct (String.eqb k k') eqn:Hk.
  - apply String.eqb_eq in Hk as <-.
    rewrite decide_True by (by rewrite bool_decide_true). simpl.
    by rewrite String.eqb_refl.
  - case_decide; simpl; [by rewrite Hk|done].
Qed.

(** [addQueryParameters] layers the parameters the same way: a name is read
    from the added parameters when they hold it, else from those the
    request had. *)
Theorem addQueryParameters_lookup (q : list (string * QueryValue)) (this : Request) k :
  queryParameters (addQueryParameters q this) ≫= assoc k
  = match assoc k q with
    | Some v => Some v
    | None => queryParameters this ≫= assoc k
    end.
Proof.
  unfold addQueryParameters, setQueryParameters, mergeObjects_query, spread_entries; simpl.
  rewrite assoc_app, assoc_map_value.
  destruct (assoc k (default [] (queryParameters this))) as [v|] eqn:Ha; simpl.
  - destruct (queryParameters this) as [qs|]; simpl in *; [|done].
    rewrite Ha. by destruct (assoc k q).
  - rewrite assoc_filter_absent by done.
    destruct (queryParameters this) as [qs|]; simpl in *; rewrite ?Ha;
      by destruct (assoc k q).
Qed.

(** ** Failures of a call *)

Section Failures.

Variable hook_at : HookRef -> Hook.
Variable fetch : FetchCall -> exn + Response.
Variable new_URL : string -> exn + string.

(** Hooks without the capability do not count in a fold. *)
Lemma fold_before_skips hooks request :
  fold_before hook_at hooks request
  = fold_before hook_at (with_before hook_at hooks) request.
Proof.
  unfold fold_before, with_before.
  generalize (inr request : exn + Request) as acc.
  induction hooks as [|h hooks IH]; intros acc; simpl; [done|].
  rewrite filter_cons. destruct (beforeRequest (hook_at h)) as [f|] eqn:Hf.
  - rewrite decide_True by done. simpl. unfold step_before at 2 4. rewrite Hf. apply IH.
  - rewrite decide_False by (by intros [? ?]). unfold step_before at 2. rewrite Hf.
    rewrite <- IH. f_equal. by destruct acc.
Qed.

Lemma fold_after_skips request hooks res :
  fold_after hook_at request hooks res
  = fold_after hook_at request (with_after hook_at hooks) res.
Proof.
  unfold fold_after, with_after.
  generalize (inr res : exn + Result) as acc.
  induction hooks as [|h hooks IH]; intros acc; simpl; [done|].
  rewrite filter_cons. destruct (afterRequest (hook_at h)) as [f|] eqn:Hf.
  - rewrite decide_True by done. simpl. unfold step_after at 2 4. rewrite Hf. apply IH.
  - rewrite decide_False by (by intros [? ?]). unfold step_after at 2. rewrite Hf.
    rewrite <- IH. f_equal. by destruct acc.
Qed.

(** The log of a phase: the calls of a prefix of the hooks that have the
    capability, added to what the log held. *)
Lemma before_phase_log hooks request log :
  ∃ ran, snd (before_phase hook_at hooks request log) = (log ++ map EvBefore ran)%list
         ∧ ran `prefix_of` with_before hook_at hooks.
Proof.
  revert request log.
  induction hooks as [|h hooks IH]; intros request log; simpl.
  - exists []. by rewrite app_nil_r.
  - unfold with_before. rewrite filter_cons.
    destruct (beforeRequest (hook_at h)) as [f|] eqn:Hf.
    + rewrite decide_True by done. unfold bind, tell, lift; simpl.
      destruct (f request) as [e|request']; simpl.
      * exists [h]. split; [done|]. by apply prefix_cons, prefix_nil.
      * destruct (IH request' (log ++ [EvBefore h])%list) as (ran & -> & Hpre).
        exists (h :: ran). split; [by rewrite <- app_assoc|]. by apply prefix_cons.
    + rewrite decide_False by (by intros [? ?]). apply IH.
Qed.

Lemma after_phase_log hooks request res log :
  ∃ ran, snd (after_phase hook_at hooks request res log) = (log ++ map EvAfter ran)%list
         ∧ ran `prefix_of` with_after hook_at hooks.
Proof.
  revert res log.
  induction hooks as [|h hooks IH]; intros res log; simpl.
  - exists []. by rewrite app_nil_r.
  - unfold with_after. rewrite filter_cons.
    destruct (afterRequest (hook_at h)) as [f|] eqn:Hf.
    + rewrite decide_True by done. unfold bind, tell, lift; simpl.
      destruct (f request res) as [e|res']; simpl.
      * exists [h]. split; [done|]. by apply prefix_cons, prefix_nil.
      * destruct (IH res' (log ++ [EvAfter h])%list) as (ran & -> & Hpre).
        exists (h :: ran). split; [by rewrite <- app_assoc|]. by apply prefix_cons.
    + rewrite decide_False by (by intros [? ?]). apply IH.
Qed.

(** The outcome of a call whose constructor and decoding succeed. *)
Lemma route_call_outcome baseUrl options resource routeDef args result decoded :
  _constructor routeDef args = inr result →
  decode_result result = inr decoded →
  outcome (route_call hook_at fetch new_URL baseUrl (global_scope options)
             resource routeDef args)
  = and_then (fold_before hook_at (call_hooks options resource result)
                (call_request baseUrl options resource result decoded))
      (fun request =>
         and_then (prepare new_URL resource request) (fun prepared =>
           let '(request', decoder', sent) := prepared in
           and_then (fetch sent) (fun response =>
             and_then (decode_response decoder' response) (fun result0 =>
               fold_after hook_at request' (call_hooks options resource result) result0)))).
Proof.
  intros Hc Hd. unfold outcome.
  rewrite (route_call_phases hook_at fetch new_URL _ _ _ _ _ _ _ _ Hc Hd). unfold bind.
  pose proof (before_phase_outcome hook_at (call_hooks options resource result)
                (call_request baseUrl options resource result decoded) []) as Ho.
  destruct (before_phase _ _ _ _) as [[e|request] log]; simpl in Ho; rewrite <- Ho; simpl.
  - done.
  - apply send_outcome.
Qed.

(** The log of such a call, by the stage it reaches. *)
Lemma route_call_trace baseUrl options resource routeDef args result decoded :
  _constructor routeDef args = inr result →
  decode_result result = inr decoded →
  let hooks := call_hooks options resource result in
  let call := route_call hook_at fetch new_URL baseUrl (global_scope options)
                resource routeDef args in
  ∃ ran,
    ran `prefix_of` with_before hook_at hooks
    ∧ match fold_before hook_at hooks
              (call_request baseUrl options resource result decoded) with
      | inl _ => trace call = map EvBefore ran
      | inr request =>
          ran = with_before hook_at hooks
          ∧ match prepare new_URL resource request with
            | inl _ => trace call = map EvBefore ran
            | inr (request', decoder', sent) =>
                match and_then (fetch sent) (decode_response decoder') with
                | inl _ => trace call = (map EvBefore ran ++ [EvFetch sent])%list
                | inr _ =>
                    ∃ ran', ran' `prefix_of` with_after hook_at hooks
                            ∧ trace call = (map EvBefore ran ++ EvFetch sent
                                            :: map EvAfter ran')%list
                end
            end
      end.
Proof.
  intros Hc Hd hooks call. unfold call, trace.
  rewrite (route_call_phases hook_at fetch new_URL _ _ _ _ _ _ _ _ Hc Hd). unfold bind.
  fold hooks.
  pose proof (before_phase_outcome hook_at hooks
                (call_request baseUrl options resource result decoded) []) as Ho.
  pose proof (before_phase_success hook_at hooks
                (call_request baseUrl options resource result decoded) []) as Hs.
  destruct (before_phase_log hooks
              (call_request baseUrl options resource result decoded) [])
    as (ran & Hlog & Hpre).
  destruct (before_phase _ _ _ _) as [[e|request] log]; simpl in Ho, Hlog;
    rewrite <- Ho.
  - subst log. by exists ran.
  - specialize (Hs _ _ eq_refl). simpl in Hs. clear Hlog. subst log.
    exists (with_before hook_at hooks). split; [done|]. split; [done|].
    pose proof (send_trace hook_at fetch new_URL resource hooks request
                  (map EvBefore (with_before hook_at hooks))) as Ht.
    destruct (prepare new_URL resource request) as [e|[[request' decoder'] sent]]; [done|].
    destruct (and_then (fetch sent) (decode_response decoder')) as [e|res]; [done|].
    rewrite Ht.
    destruct (after_phase_log hooks request' res
                (map EvBefore (with_before hook_at hooks) ++ [EvFetch sent]))
      as (ran' & -> & Hpre').
    exists ran'. split; [done|]. by rewrite <- app_assoc.
Qed.

End Failures.

Section Behaviour.

Variable hook_at : HookRef -> Hook.
Variable fetch : FetchCall -> exn + Response.
Variable new_URL : string -> exn + string.

(** A string route whose token is made of ASCII characters and is not one
    of the verbs is rejected with the error of [decodeRoute] before any
    hook or the transport is called. *)
Theorem unknown_verb_rejected_first baseUrl options resource routeDef args
    route token rest :
  _constructor routeDef args = inr (StringRoute route) →
  split_first_space route = Some (token, rest) →
  ascii_only token = true →
  (∀ verb, verb ∈ verbs → ¬ eq_ignore_case token verb) →
  route_call hook_at fetch new_URL baseUrl (global_scope options) resource routeDef args []
  = (inl (Error ("Invalid HTTP method: " +:+ Js.toUpperCase token
                 +:+ " at route: " +:+ route)), []).
Proof.
  intros Hc Hs _ Hno.
  apply (route_call_decode_failure hook_at fetch new_URL _ _ _ _ _ _ _ _ Hc).
  simpl. by apply (decodeRoute_invalid _ _ _ rest).
Qed.

(** A [beforeRequest] that throws ends the call with what it threw: the
    hooks after it are not called, nor the transport, nor any
    [afterRequest]. *)
Theorem before_hook_throw_ends_call baseUrl options resource routeDef args
    result decoded e :
  _constructor routeDef args = inr result →
  decode_result result = inr decoded →
  fold_before hook_at (call_hooks options resource result)
    (call_request baseUrl options resource result decoded) = inl e →
  let call := route_call hook_at fetch new_URL baseUrl (global_scope options)
                resource routeDef args in
  outcome call = inl e
  ∧ (∃ ran, ran `prefix_of` with_before hook_at (call_hooks options resource result)
            ∧ trace call = map EvBefore ran)
  ∧ (∀ c, EvFetch c ∉ trace call)
  ∧ (∀ h, EvAfter h ∉ trace call).
Proof.
  intros Hc Hd Hb call.
  pose proof (route_call_outcome hook_at fetch new_URL baseUrl options resource routeDef
                args result decoded Hc Hd) as Ho.
  destruct (route_call_trace hook_at fetch new_URL baseUrl options resource routeDef
              args result decoded Hc Hd) as (ran & Hpre & Ht).
  rewrite Hb in Ho, Ht. fold call in Ho, Ht. split; [done|]. split; [by exists ran|].
  rewrite Ht. split; intros x (h & Heq & _)%list_elem_of_fmap; discriminate.
Qed.

(** A failure of the transport is the failure of the call, as it is; every
    [beforeRequest] has run, no [afterRequest] runs. *)
Theorem transport_failure_passes_through baseUrl options resource routeDef args
    result decoded request request' decoder' sent e :
  _constructor routeDef args = inr result →
  decode_result result = inr decoded →
  fold_before hook_at (call_hooks options resource result)
    (call_request baseUrl options resource result decoded) = inr request →
  prepare new_URL resource request = inr (request', decoder', sent) →
  fetch sent = inl e →
  let call := route_call hook_at fetch new_URL baseUrl (global_scope options)
                resource routeDef args in
  outcome call = inl e
  ∧ trace call
    = (map EvBefore (with_before hook_at (call_hooks options resource result))
       ++ [EvFetch sent])%list.
Proof.
  intros Hc Hd Hb Hp Hf call.
  pose proof (route_call_outcome hook_at fetch new_URL baseUrl options resource routeDef
                args result decoded Hc Hd) as Ho.
  destruct (route_call_trace hook_at fetch new_URL baseUrl options resource routeDef
              args result decoded Hc Hd) as (ran & Hpre & Ht).
  rewrite Hb in Ho, Ht. simpl in Ho. rewrite Hp in Ho, Ht. simpl in Ho. rewrite Hf in Ho, Ht.
  simpl in Ho, Ht. destruct Ht as [-> Ht]. by split.
Qed.

(** When [new URL] refuses the text, or the encoder throws, the call is
    rejected with that error after the [beforeRequest] hooks and without a
    call of the transport. *)
Theorem preparation_failure_skips_transport baseUrl options resource routeDef args
    result decoded request e :
  _constructor routeDef args = inr result →
  decode_result result = inr decoded →
  fold_before hook_at (call_hooks options resource result)
    (call_request baseUrl options resource result decoded) = inr request →
  (new_URL (full_path resource request) = inl e
   ∨ (∃ url, new_URL (full_path resource request) = inr url)
     ∧ fetch_body (default JSON_stringify (encoder request)) (body request) = inl e) →
  let call := route_call hook_at fetch new_URL baseUrl (global_scope options)
                resource routeDef args in
  outcome call = inl e
  ∧ trace call = map EvBefore (with_before hook_at (call_hooks options resource result)).
Proof.
  intros Hc Hd Hb Hfail call.
  assert (Hp : prepare new_URL resource request = inl e).
  { unfold prepare. destruct Hfail as [->|[[url ->] ->]]; done. }
  pose proof (route_call_outcome hook_at fetch new_URL baseUrl options resource routeDef
                args result decoded Hc Hd) as Ho.
  destruct (route_call_trace hook_at fetch new_URL baseUrl options resource routeDef
              args result decoded Hc Hd) as (ran & Hpre & Ht).
  rewrite Hb in Ho, Ht. simpl in Ho. rewrite Hp in Ho, Ht. simpl in Ho.
  destruct Ht as [-> Ht]. by split.
Qed.

(** An [afterRequest] that throws rejects a call whose transport was
    called and answered: nothing is undone. *)
Theorem after_hook_throw_rejects baseUrl options resource routeDef args
    result decoded request request' decoder' sent response result0 e :
  _constructor routeDef args = inr result →
  decode_result result = inr decoded →
  fold_before hook_at (call_hooks options resource result)
    (call_request baseUrl options resource result decoded) = inr request →
  prepare new_URL resource request = inr (request', decoder', sent) →
  fetch sent = inr response →
  decode_response decoder' response = inr result0 →
  fold_after hook_at request' (call_hooks options resource result) result0 = inl e →
  let call := route_call hook_at fetch new_URL baseUrl (global_scope options)
                resource routeDef args in
  outcome call = inl e
  ∧ ∃ ran, ran `prefix_of` with_after hook_at (call_hooks options resource result)
           ∧ trace call
             = (map EvBefore (with_before hook_at (call_hooks options resource result))
                ++ EvFetch sent :: map EvAfter ran)%list.
Proof.
  intros Hc Hd Hb Hp Hf Hr Ha call.
  pose proof (route_call_outcome hook_at fetch new_URL baseUrl options resource routeDef
                args result decoded Hc Hd) as Ho.
  destruct (route_call_trace hook_at fetch new_URL baseUrl options resource routeDef
              args result decoded Hc Hd) as (ran & Hpre & Ht).
  rewrite Hb in Ho, Ht. simpl in Ho. rewrite Hp in Ho, Ht. simpl in Ho. rewrite Hf in Ho, Ht.
  simpl in Ho, Ht. rewrite Hr in Ho, Ht. simpl in Ho.
  destruct Ht as [-> (ran' & Hpre' & Ht)].
  split; [unfold call; by rewrite Ho|]. by exists ran'.
Qed.

(** The status of the response never rejects a call: when the body parses
    and no hook has an [afterRequest], the call resolves with the status,
    the headers and the parsed body of the response, whatever the status. *)
Theorem status_is_passed_on baseUrl options resource routeDef args
    result decoded request request' decoder' sent response d :
  _constructor routeDef args = inr result →
  decode_result result = inr decoded →
  fold_before hook_at (call_hooks options resource result)
    (call_request baseUrl options resource result decoded) = inr request →
  prepare new_URL resource request = inr (request', decoder', sent) →
  fetch sent = inr response →
  parse_body decoder' response = inr d →
  with_after hook_at (call_hooks options resource result) = [] →
  outcome (route_call hook_at fetch new_URL baseUrl (global_scope options)
             resource routeDef args)
  = inr {| rs_headers := resp_headers response;
           statusCode := resp_status response;
           data := d |}.
Proof.
  intros Hc Hd Hb Hp Hf Hr Hno.
  rewrite (route_call_outcome hook_at fetch new_URL baseUrl options resource routeDef
             args result decoded Hc Hd).
  rewrite Hb. simpl. rewrite Hp. simpl. rewrite Hf. simpl.
  unfold decode_response. rewrite Hr. simpl.
  by rewrite fold_after_skips, Hno.
Qed.

(** The log of any call: calls of [beforeRequest], in the order of the
    list of hooks and without a gap, then at most one call of the
    transport, then calls of [afterRequest], in the same order and without
    a gap; the transport is called only after every [beforeRequest], and an
    [afterRequest] only after the transport. *)
Theorem trace_shape baseUrl options resource routeDef args result :
  _constructor routeDef args = inr result →
  ∃ before sent after,
    trace (route_call hook_at fetch new_URL baseUrl (global_scope options)
             resource routeDef args)
    = (map EvBefore before ++ map EvFetch sent ++ map EvAfter after)%list
    ∧ before `prefix_of` with_before hook_at (call_hooks options resource result)
    ∧ after `prefix_of` with_after hook_at (call_hooks options resource result)
    ∧ (length sent ≤ 1)%nat
    ∧ (sent = [] → after = [])
    ∧ (sent ≠ [] → before = with_before hook_at (call_hooks options resource result)).
Proof.
  intros Hc. destruct (decode_result result) as [e|decoded] eqn:Hd.
  - exists [], [], []. unfold trace.
    rewrite (route_call_decode_failure hook_at fetch new_URL _ _ _ _ _ _ _ _ Hc Hd).
    repeat split; first [done | apply prefix_nil | simpl; lia].
  - destruct (route_call_trace hook_at fetch new_URL baseUrl options resource routeDef
                args result decoded Hc Hd) as (ran & Hpre & Ht).
    destruct (fold_before _ _ _) as [e|request].
    { exists ran, [], []. rewrite Ht, !app_nil_r.
      repeat split; first [done | apply prefix_nil | simpl; lia]. }
    destruct Ht as [-> Ht].
    destruct (prepare new_URL resource request) as [e|[[request' decoder'] call]].
    { eexists _, [], []. rewrite Ht, !app_nil_r.
      repeat split; first [done | apply prefix_nil | simpl; lia]. }
    destruct (and_then (fetch call) (decode_response decoder')) as [e|res].
    { eexists _, [call], []. rewrite Ht. repeat split; first [done | apply prefix_nil | simpl; lia]. }
    destruct Ht as (ran' & Hpre' & Ht).
    eexists _, [call], ran'. rewrite Ht. repeat split; first [done | simpl; lia].
Qed.

End Behaviour.

Lemma unknown_verb_rejected_first_witness :
  route_call Sample.no_hook Sample.fetch_null Sample.URL "http://h" (global_scope None)
    Sample.users Sample.fetch_verb_route [] []
  = (inl (Error "Invalid HTTP method: FETCH at route: fetch /users"), []).
Proof.
  apply (unknown_verb_rejected_first Sample.no_hook Sample.fetch_null Sample.URL
           "http://h" None Sample.users Sample.fetch_verb_route []
           "fetch /users" "fetch" "/users" eq_refl eq_refl eq_refl).
  intros verb Hin. unfold verbs in Hin. set_unfold in Hin.
  destruct Hin as [->|[->|[->|[->|[->|[]]]]]]; discriminate.
Defined.

Lemma before_hook_throw_ends_call_witness :
  outcome (route_call Sample.failing_hooks Sample.fetch_null Sample.URL "http://h"
             (global_scope (Some Sample.tagged_options)) Sample.tagged_resource
             Sample.tagged_route [])
  = inl Sample.boom
  ∧ ∀ c, EvFetch c ∉ trace (route_call Sample.failing_hooks Sample.fetch_null Sample.URL
                              "http://h" (global_scope (Some Sample.tagged_options))
                              Sample.tagged_resource Sample.tagged_route []).
Proof.
  destruct (before_hook_throw_ends_call Sample.failing_hooks Sample.fetch_null Sample.URL
              "http://h" (Some Sample.tagged_options) Sample.tagged_resource
              Sample.tagged_route [] _ _ Sample.boom eq_refl eq_refl eq_refl)
    as (Ho & _ & Hf & _).
  exact (conj Ho Hf).
Defined.

Lemma transport_failure_passes_through_witness :
  outcome (route_call Sample.no_hook Sample.fetch_down Sample.URL "http://h"
             (global_scope None) Sample.users Sample.create_user [])
  = inl Sample.network_error.
Proof.
  exact (proj1 (transport_failure_passes_through Sample.no_hook Sample.fetch_down
                  Sample.URL "http://h" None Sample.users Sample.create_user []
                  _ _ _ _ _ _ Sample.network_error
                  eq_refl eq_refl eq_refl eq_refl eq_refl)).
Defined.

Lemma preparation_failure_skips_transport_witness :
  outcome (route_call Sample.no_hook Sample.fetch_null Sample.URL_refusing "http://h"
             (global_scope None) Sample.users Sample.create_user [])
  = inl Sample.invalid_url
  ∧ trace (route_call Sample.no_hook Sample.fetch_null Sample.URL_refusing "http://h"
             (global_scope None) Sample.users Sample.create_user [])
    = [].
Proof.
  exact (preparation_failure_skips_transport Sample.no_hook Sample.fetch_null
           Sample.URL_refusing "http://h" None Sample.users Sample.create_user []
           _ _ _ Sample.invalid_url eq_refl eq_refl eq_refl (or_introl eq_refl)).
Defined.

Lemma after_hook_throw_rejects_witness :
  outcome (route_call Sample.failing_after_hooks Sample.fetch_null Sample.URL "http://h"
             (global_scope (Some Sample.tagged_options)) Sample.tagged_resource
             Sample.tagged_route [])
  = inl Sample.boom.
Proof.
  exact (proj1 (after_hook_throw_rejects Sample.failing_after_hooks Sample.fetch_null
                  Sample.URL "http://h" (Some Sample.tagged_options)
                  Sample.tagged_resource Sample.tagged_route []
                  _ _ _ _ _ _ _ _ Sample.boom
                  eq_refl eq_refl eq_refl eq_refl eq_refl eq_refl eq_refl)).
Defined.

Lemma status_is_passed_on_witness :
  outcome (route_call Sample.no_hook Sample.fetch_not_found Sample.URL "http://h"
             (global_scope None) Sample.users Sample.create_user [])
  = inr {| rs_headers := {[ "x-request-id" := "7" ]};
           statusCode := 404;
           data := VObject [("error", VString "not found")] |}.
Proof.
  exact (status_is_passed_on Sample.no_hook Sample.fetch_not_found Sample.URL "http://h"
           None Sample.users Sample.create_user [] _ _ _ _ _ _ _ _
           eq_refl eq_refl eq_refl eq_refl eq_refl eq_refl eq_refl).
Defined.

Lemma trace_shape_witness :
  ∃ before sent after,
    trace (route_call Sample.tagged_hooks Sample.fetch_null Sample.URL "http://h"
             (global_scope (Some Sample.tagged_options)) Sample.tagged_resource
             Sample.tagged_route [])
    = (map EvBefore before ++ map EvFetch sent ++ map EvAfter after)%list
    ∧ (length sent ≤ 1)%nat.
Proof.
  destruct (trace_shape Sample.tagged_hooks Sample.fetch_null Sample.URL "http://h"
              (Some Sample.tagged_options) Sample.tagged_resource Sample.tagged_route []
              _ eq_refl)
    as (before & sent & after & Ht & _ & _ & Hlen & _).
  by exists before, sent, after.
Defined.

(** ** The URL, the request of the after phase, the client *)

Lemma append_assoc_string (a b c : string) : (a +:+ b) +:+ c = a +:+ (b +:+ c).
Proof.
  induction a as [|x a IH]; [reflexivity|].
  change (String x ((a +:+ b) +:+ c) = String x (a +:+ (b +:+ c))). by rewrite IH.
Qed.

Section Client.

Variable hook_at : HookRef -> Hook.
Variable fetch : FetchCall -> exn + Response.
Variable new_URL : string -> exn + string.

(** The URL given to the transport is what [new URL] makes of the base
    URL, the prefix of the resource when it has a non-empty one, and the
    path (the text [undefined] when the request has no path), in this
    order; its search parameters are the query parameters of the request,
    in their order, each value turned into text. *)
Theorem url_is_base_prefix_path resource request request' decoder' sent :
  prepare new_URL resource request = inr (request', decoder', sent) →
  new_URL (baseUrl request +:+ default "" (prefix resource)
           +:+ default "undefined" (path request))
  = inr (href (f_url sent))
  ∧ searchParams (f_url sent)
    = map (fun kv => (fst kv, query_toString (snd kv)))
          (default [] (queryParameters request)).
Proof.
  unfold prepare.
  assert (Hpath : full_path resource request
                  = baseUrl request +:+ default "" (prefix resource)
                    +:+ default "undefined" (path request)).
  { unfold full_path. destruct (prefix resource) as [p|]; simpl; [|done].
    destruct (String.eqb p "") eqn:Hp; simpl.
    - by apply String.eqb_eq in Hp as ->.
    - apply append_assoc_string. }
  rewrite Hpath. destruct (new_URL _) as [e|url]; [done|].
  destruct (fetch_body _ _) as [e|wire]; [done|].
  intros [= _ _ <-]. simpl. split; [done|]. by destruct (queryParameters request).
Qed.

(** The request that [prepare] hands on to the [afterRequest] hooks is the
    request the [beforeRequest] hooks returned, but for its headers: with
    the encoder [JSON.stringify] it holds a Content-Type, the one it had or
    else [application/json]; with another encoder it is unchanged.  No other
    header and no other field differ. *)
Theorem request_of_after_phase resource request request' decoder' sent :
  prepare new_URL resource request = inr (request', decoder', sent) →
  (is_JSON_stringify (default JSON_stringify (encoder request)) = true →
   headers request' ≫= (.!! content_type)
   = Some (default application_json (headers request ≫= (.!! content_type))))
  ∧ (is_JSON_stringify (default JSON_stringify (encoder request)) = false →
     request' = request)
  ∧ setHeaders (headers request) request' = request
  ∧ (∀ k, k ≠ content_type →
          headers request' ≫= (.!! k) = headers request ≫= (.!! k)).
Proof.
  unfold prepare. destruct (new_URL _) as [e|url]; [done|].
  destruct (fetch_body _ _) as [e|wire]; [done|].
  intros [= <- _ _].
  destruct (is_JSON_stringify (default JSON_stringify (encoder request))); simpl.
  - case_bool_decide as Hct; simpl.
    + repeat split; try done.
      * intros _. rewrite Hct. simpl. unfold mergeObjects. simpl.
        apply lookup_union_Some_l, lookup_singleton_eq.
      * by destruct request.
      * intros k Hk. unfold mergeObjects. simpl. rewrite lookup_union.
        rewrite lookup_singleton_ne by done.
        destruct (headers request) as [hs|]; simpl; [|done]. by destruct (hs !! k).
    + repeat split; try done.
      * intros _. destruct (headers request ≫= (.!! content_type)); done.
      * by destruct request.
  - repeat split; try done. by destruct request.
Qed.

(** When no hook has a [beforeRequest], the transport receives the method
    of the descriptor when it has one, else the decoded verb; for a string
    route it receives no body and no search parameter, and the response is
    read as JSON. *)
Theorem request_sent_without_hooks baseUrl options resource routeDef args
    result decoded request' decoder' sent :
  _constructor routeDef args = inr result →
  decode_result result = inr decoded →
  with_before hook_at (call_hooks options resource result) = [] →
  prepare new_URL resource (call_request baseUrl options resource result decoded)
  = inr (request', decoder', sent) →
  (∀ c, EvFetch c ∈ trace (route_call hook_at fetch new_URL baseUrl
                             (global_scope options) resource routeDef args) ↔ c = sent)
  ∧ f_method sent
    = match result with
      | StringRoute _ => d_method decoded
      | StructuredRoute r => default (d_method decoded) (pr_method r)
      end
  ∧ (∀ route, result = StringRoute route →
       f_body sent = VUndefined ∧ searchParams (f_url sent) = []
       ∧ decoder' = JSON_parse).
Proof.
  intros Hc Hd Hno Hp.
  assert (Hb : fold_before hook_at (call_hooks options resource result)
                 (call_request baseUrl options resource result decoded)
               = inr (call_request baseUrl options resource result decoded)).
  { by rewrite fold_before_skips, Hno. }
  split; [by apply (route_call_fetch hook_at fetch new_URL _ _ _ _ _ _ _ _ _ _ _
                      Hc Hd Hb Hp)|].
  unfold prepare in Hp. destruct (new_URL _) as [e|url]; [done|].
  destruct (fetch_body _ _) as [e|wire] eqn:Hw; [done|].
  injection Hp as _ <- <-. simpl. split.
  - by destruct result.
  - intros route ->. simpl in *. by injection Hw as <-.
Qed.

End Client.

Lemma url_is_base_prefix_path_witness :
  ∃ sent,
    Sample.URL "http://h/api/" = inr (href (f_url sent))
    ∧ searchParams (f_url sent) = [("q", "a b"); ("page", "2"); ("all", "true")].
Proof.
  eexists.
  exact (url_is_base_prefix_path Sample.URL Sample.api_resource
           (setQueryParameters
              (Some [("q", QString "a b"); ("page", QNumber 2); ("all", QBoolean true)])
              Sample.plain_request)
           _ _ _ eq_refl).
Defined.

Lemma request_sent_without_hooks_witness :
  ∃ sent,
    (∀ c, EvFetch c ∈ trace (route_call Sample.no_hook Sample.fetch_null Sample.URL
                               "http://h" (global_scope None) Sample.api_resource
                               Sample.search_route [])
          ↔ c = sent)
    ∧ f_method sent = "PUT".
Proof.
  eexists.
  pose proof (request_sent_without_hooks Sample.no_hook Sample.fetch_null Sample.URL
                "http://h" None Sample.api_resource Sample.search_route []
                _ _ _ _ _ eq_refl eq_refl eq_refl eq_refl) as (Hf & Hm & _).
  split; [exact Hf|exact Hm].
Defined.

Lemma request_of_after_phase_witness :
  ∃ request',
    headers request' ≫= (.!! content_type) = Some application_json
    ∧ setHeaders (headers Sample.plain_request) request' = Sample.plain_request.
Proof.
  eexists.
  pose proof (request_of_after_phase Sample.URL Sample.users Sample.plain_request
                _ _ _ eq_refl) as (Hct & _ & Hrest & _).
  split; [exact (Hct eq_refl)|exact Hrest].
Defined.

(** ** Sharing between request objects *)

(** [addHeaders] writes the reference of a new headers object into the
    receiver and nothing else: the receiver then reads as the value of
    [addHeaders], every other request reads as before, even one that
    shared the headers object of the receiver, and every headers object
    that was there, the one of the caller included, is as it was.  The
    object the receiver now refers to was not in the store: it is neither
    the one the receiver had nor the one of the caller. *)
Theorem store_addHeaders_frame σ this h r hv :
  Store.read_request σ this = Some r →
  Store.headerObjects σ !! h = Some hv →
  ∃ σ',
    Store.addHeaders σ this h = Some σ'
    ∧ Store.read_request σ' this = Some (addHeaders hv r)
    ∧ (∀ l r', l ≠ this → Store.read_request σ l = Some r' →
               Store.read_request σ' l = Some r')
    ∧ (∀ l, is_Some (Store.headerObjects σ !! l) →
            Store.headerObjects σ' !! l = Store.headerObjects σ !! l)
    ∧ Store.hookObjects σ' = Store.hookObjects σ
    ∧ ∃ cell' l,
        Store.requests σ' !! this = Some cell'
        ∧ Store.c_headers cell' = Some l
        ∧ Store.headerObjects σ !! l = None
        ∧ l ≠ h.
Proof.
  intros Hr Hh.
  apply read_request_inv in Hr as (cell & hv0 & kv & Hcell & Hh0 & Hk & ->).
  unfold Store.addHeaders. rewrite Hcell. simpl. rewrite Hh0. simpl. rewrite Hh. simpl.
  eexists. split; [reflexivity|]. simpl. split; [|split; [|split; [|split]]].
  - unfold Store.read_request. simpl. rewrite !lookup_insert_eq. simpl.
    rewrite lookup_insert_eq. simpl. by rewrite Hk.
  - intros l r' Hne Hl.
    apply read_request_inv in Hl as (cell' & hv' & kv' & Hcell' & Hh' & Hk' & ->).
    unfold Store.read_request. simpl. rewrite lookup_insert_ne by done.
    rewrite Hcell'. simpl. rewrite (deref_alloc _ _ _ _ Hh'). simpl. by rewrite Hk'.
  - intros l Hl. by apply lookup_alloc.
  - done.
  - eexists _, _. split; [apply lookup_insert_eq|]. simpl. split; [done|].
    split; [apply lookup_fresh|]. intros Heq.
    pose proof (lookup_fresh (Store.headerObjects σ)) as Hf. rewrite Heq in Hf. congruence.
Qed.

(** A merge with a partial request that has no [headers] key copies the
    reference: the new request and the receiver share one headers object
    (and one hooks object when the partial request has no [hooks] key
    either). *)
Theorem store_merge_shares_headers σ this p σ' new :
  Store.merge σ this p = Some (σ', new) →
  Store.pc_headers p = None →
  ∃ cell cell',
    Store.requests σ !! this = Some cell
    ∧ Store.requests σ' !! new = Some cell'
    ∧ new ≠ this
    ∧ Store.c_headers cell' = Store.c_headers cell
    ∧ (Store.pc_hooks p = None → Store.c_hooks cell' = Store.c_hooks cell).
Proof.
  unfold Store.merge. intros Hm Hnone.
  destruct (Store.requests σ !! this) as [cell|] eqn:Hcell; [|done]. simpl in Hm.
  rewrite Hnone in Hm. simpl in Hm.
  assert (Hnew : ∀ (m : gmap Store.loc Store.RequestCell), m !! this = Some cell →
                   fresh (dom m) ≠ this).
  { intros m Hin Heq. pose proof (lookup_fresh m) as Hf. rewrite Heq in Hf. congruence. }
  destruct (Store.pc_hooks p) as [[lk|]|] eqn:Hk; simpl in Hm.
  - destruct (Store.deref (Store.hookObjects σ) (Store.c_hooks cell)) as [a|]; [|done].
    simpl in Hm. destruct (Store.hookObjects σ !! lk) as [b|]; [|done]. simpl in Hm.
    injection Hm as <- <-. eexists _, _. simpl. split; [done|].
    split; [apply lookup_insert_eq|]. split; [by apply Hnew|]. by split.
  - injection Hm as <- <-. eexists _, _. simpl. split; [done|].
    split; [apply lookup_insert_eq|]. split; [by apply Hnew|]. by split.
  - injection Hm as <- <-. eexists _, _. simpl. split; [done|].
    split; [apply lookup_insert_eq|]. split; [by apply Hnew|]. by split.
Qed.

Lemma store_addHeaders_frame_witness :
  ∃ σ',
    Store.addHeaders Sample.plain_store 1%positive 2%positive = Some σ'
    ∧ headers <$> Store.read_request σ' 1%positive
      = Some (Some (<[ "X" := "1" ]> {[ "A" := "0" ]}))
    ∧ Store.headerObjects σ' !! 1%positive = Some {[ "A" := "0" ]}
    ∧ Store.headerObjects σ' !! 2%positive = Some {[ "X" := "1" ]}.
Proof.
  destruct (store_addHeaders_frame Sample.plain_store 1%positive 2%positive _ _
              eq_refl eq_refl) as (σ' & Ha & Hthis & _ & Hframe & _).
  exists σ'. split; [exact Ha|]. split; [rewrite Hthis; vm_compute; reflexivity|].
  split; (rewrite Hframe; [vm_compute; reflexivity|by eexists]).
Defined.

Lemma store_merge_shares_headers_witness :
  ∃ cell cell',
    Store.requests Sample.plain_store !! 1%positive = Some cell
    ∧ Store.c_headers cell' = Store.c_headers cell
    ∧ Store.c_headers cell = Some 1%positive.
Proof.
  destruct (store_merge_shares_headers Sample.plain_store 1%positive
              (Store.mkPartialCell None None emptyPartial) _ _ eq_refl eq_refl)
    as (cell & cell' & Hcell & _ & _ & Hshare & _).
  exists cell, cell'. split; [exact Hcell|]. split; [exact Hshare|].
  vm_compute in Hcell. injection Hcell as <-. reflexivity.
Defined.

(** ** The headers a call starts from, and the object the routes share *)

Section Layers.

Variable hook_at : HookRef -> Hook.
Variable fetch : FetchCall -> exn + Response.
Variable new_URL : string -> exn + string.

(** While the headers object that the routes of a resource share holds
    what [createClient] put there, a call folds its hooks over a request
    whose headers are the global ones overwritten by those of the resource
    overwritten by those of the descriptor; the transport receives the
    headers of the request the hooks return, which are those layers when
    no hook has a [beforeRequest]. *)
Lemma headers_layers_of_call baseUrl options resource routeDef args result decoded :
  _constructor routeDef args = inr result →
  decode_result result = inr decoded →
  let layers :=
    mergeObjects
      (Some (mergeObjects (Some (default ∅ (options ≫= o_headers)))
                          (Some (default ∅ (r_headers resource)))))
      (Some (descriptor_headers result)) in
  let hooks := call_hooks options resource result in
  let call := route_call hook_at fetch new_URL baseUrl (global_scope options)
                resource routeDef args in
  ∃ request0,
    headers request0 = Some layers
    ∧ outcome call
      = and_then (fold_before hook_at hooks request0) (fun request =>
          and_then (prepare new_URL resource request) (fun prepared =>
            let '(request', decoder', sent) := prepared in
            and_then (fetch sent) (fun response =>
              and_then (decode_response decoder' response) (fun result0 =>
                fold_after hook_at request' hooks result0))))
    ∧ (∀ request c, fold_before hook_at hooks request0 = inr request →
                    EvFetch c ∈ trace call → f_headers c = headers request)
    ∧ (with_before hook_at hooks = [] →
       ∀ c, EvFetch c ∈ trace call → f_headers c = Some layers).
Proof.
  intros Hc Hd layers hooks call.
  exists (call_request baseUrl options resource result decoded).
  split; [apply call_request_headers|].
  split; [by apply route_call_outcome|].
  assert (Hsent : ∀ request c,
            fold_before hook_at hooks
              (call_request baseUrl options resource result decoded) = inr request →
            EvFetch c ∈ trace call → f_headers c = headers request).
  { intros request c Hb Hin.
    destruct (route_call_trace hook_at fetch new_URL baseUrl options resource routeDef
                args result decoded Hc Hd) as (ran & Hpre & Ht).
    fold hooks call in Ht. rewrite Hb in Ht. destruct Ht as [-> Ht].
    assert (Hno : EvFetch c ∉ map EvBefore (with_before hook_at hooks)).
    { by intros (h & Heq & _)%list_elem_of_fmap. }
    destruct (prepare new_URL resource request) as [e|[[request' decoder'] sent]] eqn:Hp.
    { by rewrite Ht in Hin. }
    assert (Hc' : c = sent).
    { destruct (and_then (fetch sent) (decode_response decoder')) as [e|res].
      - rewrite Ht in Hin. apply elem_of_app in Hin as [?|Hs]; [done|].
        apply list_elem_of_singleton in Hs. by injection Hs.
      - destruct Ht as (ran' & _ & Ht). rewrite Ht in Hin.
        apply elem_of_app in Hin as [?|Hs]; [done|].
        apply elem_of_cons in Hs as [Hs|Hs]; [by injection Hs|].
        by apply list_elem_of_fmap in Hs as (h & Heq & _). }
    subst c. by destruct (prepare_headers _ _ _ _ _ _ Hp) as [-> _]. }
  split; [exact Hsent|].
  intros Hno c Hin. unfold layers.
  rewrite <- (call_request_headers baseUrl options resource result decoded).
  apply Hsent; [|done]. by rewrite fold_before_skips, Hno.
Qed.

End Layers.

(** The object of the initial request: it reads as the request of lines
    30-49 built over what the shared object holds at the time of the call;
    the shared object and every other headers object are as they were.  A
    string route refers to the shared object itself; a structured route to
    an object that was not in the store. *)
Lemma initial_request_object_shares σ std s baseUrl global res result decoded :
  Store.headerObjects σ !! std = Some s →
  ∃ σ' new cell,
    Store.initial_request_object σ std baseUrl global res result decoded = Some (σ', new)
    ∧ Store.requests σ' !! new = Some cell
    ∧ Store.read_request σ' new
      = Some (initial_request baseUrl global res s result decoded)
    ∧ (∀ l, is_Some (Store.headerObjects σ !! l) →
            Store.headerObjects σ' !! l = Store.headerObjects σ !! l)
    ∧ match result with
      | StringRoute _ => Store.c_headers cell = Some std
      | StructuredRoute _ =>
          ∃ l, Store.c_headers cell = Some l ∧ Store.headerObjects σ !! l = None
      end.
Proof.
  intros Hs. unfold Store.initial_request_object. rewrite Hs. simpl.
  destruct result as [route|r]; simpl.
  - eexists _, _, _. split; [reflexivity|]. simpl.
    split; [apply lookup_insert_eq|].
    split; [|by split].
    unfold Store.read_request. simpl. rewrite lookup_insert_eq. simpl. by rewrite Hs.
  - destruct (pr_hooks r) as [l|] eqn:Hk; simpl.
    + eexists _, _, _. split; [reflexivity|]. simpl.
      split; [apply lookup_insert_eq|].
      split; [|split; [intros l' Hl'; by apply lookup_alloc|]].
      * unfold Store.read_request. simpl. rewrite lookup_insert_eq. simpl.
        rewrite !lookup_insert_eq. simpl. rewrite ?Hk. reflexivity.
      * eexists. split; [reflexivity|apply lookup_fresh].
    + eexists _, _, _. split; [reflexivity|]. simpl.
      split; [apply lookup_insert_eq|].
      split; [|split; [intros l' Hl'; by apply lookup_alloc|]].
      * unfold Store.read_request. simpl. rewrite lookup_insert_eq. simpl.
        rewrite !lookup_insert_eq. simpl. rewrite ?Hk. reflexivity.
      * eexists. split; [reflexivity|apply lookup_fresh].
Qed.

(** A write into the headers of the request of a string route is a write
    into the shared object: the request of every later call of the
    resource starts from it. *)
Lemma write_header_reaches_later_calls σ std s baseUrl global res route decoded
    σ1 first k v result' decoded' :
  Store.headerObjects σ !! std = Some s →
  Store.initial_request_object σ std baseUrl global res (StringRoute route) decoded
  = Some (σ1, first) →
  ∃ σ2 σ3 second,
    Store.write_header σ1 first k v = Some σ2
    ∧ Store.headerObjects σ2 !! std = Some (<[k := v]> s)
    ∧ Store.initial_request_object σ2 std baseUrl global res result' decoded'
      = Some (σ3, second)
    ∧ Store.read_request σ3 second
      = Some (initial_request baseUrl global res (<[k := v]> s) result' decoded').
Proof.
  intros Hs Hfirst.
  unfold Store.initial_request_object in Hfirst. rewrite Hs in Hfirst. simpl in Hfirst.
  injection Hfirst as <- <-.
  unfold Store.write_header. simpl. rewrite lookup_insert_eq. simpl. rewrite Hs. simpl.
  eexists. 
  assert (Hstd : <[std := <[k := v]> s]> (Store.headerObjects σ) !! std
                 = Some (<[k := v]> s)) by apply lookup_insert_eq.
  destruct (initial_request_object_shares
              {| Store.requests :=
                   <[fresh (dom (Store.requests σ)) :=
                       {| Store.c_headers := Some std; Store.c_hooks := None;
                          Store.c_fields :=
                            initial_request baseUrl global res s (StringRoute route)
                              decoded |}]> (Store.requests σ);
                 Store.headerObjects := <[std := <[k := v]> s]> (Store.headerObjects σ);
                 Store.hookObjects := Store.hookObjects σ |}
              std (<[k := v]> s) baseUrl global res result' decoded' Hstd)
    as (σ3 & second & cell & Hcall & _ & Hread & _).
  exists σ3, second. split; [reflexivity|]. by split; [|split].
Qed.

(** C5 (the code on two calls of one resource): [createClient] makes the
    shared headers [{A: "2", B: "3"}] of the resource; the request of a call
    of the string route ["/login"] refers to that object, so the assignment
    [request.headers["X-Login"] = "1"] of a hook writes into it; a later
    call whose descriptor has the headers [{B: "4"}] then starts from
    [{A: "2", B: "4", X-Login: "1"}], which is not the merge
    [{A: "2", B: "4"}] of the global headers, those of the resource and
    those of the descriptor. *)
Theorem shared_headers_leak_into_later_call :
  ∃ σ1 std σ2 first σ3 σ4 second,
    Store.resource_headers Store.empty_store Sample.layered_global Sample.layered_scope
    = (σ1, std)
    ∧ decode_result Sample.login_route = inr (mkDecoded "GET" (Some "/login"))
    ∧ Store.initial_request_object σ1 std "http://h" Sample.layered_global
        Sample.layered_scope Sample.login_route (mkDecoded "GET" (Some "/login"))
      = Some (σ2, first)
    ∧ headers <$> Store.read_request σ2 first
      = Some (Some (<[ "A" := "2" ]> {[ "B" := "3" ]}))
    ∧ Store.c_headers <$> Store.requests σ2 !! first = Some (Some std)
    ∧ Store.write_header σ2 first "X-Login" "1" = Some σ3
    ∧ decode_result Sample.layered_route = inr (mkDecoded "GET" (Some "/things"))
    ∧ Store.initial_request_object σ3 std "http://h" Sample.layered_global
        Sample.layered_scope Sample.layered_route (mkDecoded "GET" (Some "/things"))
      = Some (σ4, second)
    ∧ headers <$> Store.read_request σ4 second
      = Some (Some (<[ "X-Login" := "1" ]> (<[ "A" := "2" ]> {[ "B" := "4" ]})))
    ∧ mergeObjects
        (Some (mergeObjects (Some (s_headers Sample.layered_global))
                            (Some (s_headers Sample.layered_scope))))
        (Some (descriptor_headers Sample.layered_route))
      = <[ "A" := "2" ]> {[ "B" := "4" ]}
    ∧ (<[ "X-Login" := "1" ]> (<[ "A" := "2" ]> {[ "B" := "4" ]}) : Headers)
      ≠ <[ "A" := "2" ]> {[ "B" := "4" ]}.
Proof.
  eexists _, _, _, _, _, _, _.
  split; [reflexivity|]. split; [reflexivity|].
  split; [vm_compute; reflexivity|]. split; [vm_compute; reflexivity|].
  split; [vm_compute; reflexivity|]. split; [vm_compute; reflexivity|].
  split; [reflexivity|]. split; [vm_compute; reflexivity|].
  split; [vm_compute; reflexivity|]. split; [vm_compute; reflexivity|].
  intros Heq. apply (f_equal (fun m : Headers => m !! "X-Login")) in Heq.
  vm_compute in Heq. discriminate Heq.
Qed.

(** The layers of the example of the claim, through the client: global
    [{A: "1"}], resource [{A: "2", B: "3"}], descriptor [{B: "4"}]. *)
Example layers_through_client hook_at fetch :
  ∃ call,
    invoke (createClient hook_at fetch Sample.URL "http://h"
              [("things", Sample.layered_resource)] (Some Sample.layered_options))
           "things" "list" [] = Some call
    ∧ ∃ c, hd_error (trace call) = Some (EvFetch c)
           ∧ f_headers c = Some (<[ "A" := "2" ]> {[ "B" := "4" ]}).
Proof.
  eexists. split; [reflexivity|].
  unfold trace, route_call, bind, lift, tell; simpl.
  unfold send, prepare, bind, lift, tell, Sample.URL; simpl.
  eexists. split.
  - destruct (fetch _) as [e|response]; simpl; [reflexivity|].
    unfold decode_response, parse_body. destruct (resp_json response); reflexivity.
  - vm_compute. reflexivity.
Qed.
